(** * Anime season tracker: filter, sampler, genre facets and catalog loader

    A shallow embedding of the client-side logic of the anime season
    tracker: [filterAnime] of app.js (season browser), [getRandomAnime] of
    random.js and of data_cn.js (random picker), [extractGenres] of app.js,
    [loadGenres] and [loadAllAnimeData] of random.js / data_cn.js.

    JavaScript values that the code inspects dynamically ([anime.score],
    [anime.is_hentai], [anime.is_japanese]) are kept as dynamically typed
    values.  A score and the rating threshold, which the code only
    compares, are rationals (every finite double is one).  Where the code
    computes with numbers -- the product of the random draw, the sums and
    the quotient of the moving average -- they are IEEE 754 binary64
    numbers with the operations of the library's [SpecFloat]. *)

From Stdlib Require Import QArith Qround Qpower SpecFloat.
From stdpp Require Import base option list sorting gmap strings.

Local Open Scope Z_scope.

(** ** JavaScript values *)

Inductive JsVal :=
  | JUndefined
  | JNull
  | JBool (b : bool)
  | JNum (q : Q)
  | JNaN
  | JStr (s : string).

(** [ToBoolean]: what [if (v)], [!v] and [v || d] look at. *)
Definition truthy (v : JsVal) : bool :=
  match v with
  | JUndefined | JNull | JNaN => false
  | JBool b => b
  | JNum q => negb (Qeq_bool q 0)
  | JStr s => negb (String.eqb s "")
  end.

(** [v === null], [v === undefined], [v === false]. *)
Definition isNull (v : JsVal) : bool :=
  match v with JNull => true | _ => false end.
Definition isUndefined (v : JsVal) : bool :=
  match v with JUndefined => true | _ => false end.
Definition strictEqFalse (v : JsVal) : bool :=
  match v with JBool false => true | _ => false end.

(** [typeof v === 'number'] and [Number.isNaN(v)]. *)
Definition typeofNumber (v : JsVal) : bool :=
  match v with JNum _ | JNaN => true | _ => false end.
Definition NumberIsNaN (v : JsVal) : bool :=
  match v with JNaN => true | _ => false end.

(** ** Records and page state *)

(** One entry of a season file.  [genres] is [None] when the field is
    missing or null ([anime.genres || []]); [year] and [season] are only
    present once the loader has attached them. *)
Record Anime := mkAnime {
  mal_id : Z;
  title : string;
  score : JsVal;
  is_hentai : JsVal;
  is_japanese : JsVal;
  genres : option (list string);
  year : option Z;
  season : option string
}.

Inductive FilterMode := OR | AND.

(** The page-level variables read by the filters. *)
Record FilterState := mkFilterState {
  showHentai : bool;
  hideNotRated : bool;
  japaneseOnly : bool;
  selectedGenres : gset string;
  filterMode : FilterMode
}.

(** [animeGenres.includes(genre)] *)
Definition includes (animeGenres : list string) (genre : string) : bool :=
  bool_decide (genre ∈ animeGenres).

(** [Array.from(selectedGenres).some(p)] and [.every(p)].  The set is
    enumerated by [elements]; the outcome of [some] and [every] does not
    depend on the enumeration order. *)
Definition someSelected (sel : gset string) (p : string → bool) : bool :=
  existsb p (elements sel).
Definition everySelected (sel : gset string) (p : string → bool) : bool :=
  forallb p (elements sel).

(** The genre block shared verbatim by [filterAnime] (app.js) and
    [getRandomAnime] (data_cn.js): [true] when the block executes
    [return false]. *)
Definition genreBlockRejects (st : FilterState) (anime : Anime) : bool :=
  if bool_decide (0 < size (selectedGenres st))%nat then
    let animeGenres := default [] (genres anime) in
    match filterMode st with
    | OR =>
        let hasSelectedGenre :=
          someSelected (selectedGenres st) (includes animeGenres) in
        negb hasSelectedGenre
    | AND =>
        let hasAllGenres :=
          everySelected (selectedGenres st) (includes animeGenres) in
        negb hasAllGenres
    end
  else false.

(** [x < y] on numbers. *)
Definition Qltb (x y : Q) : bool := negb (Qle_bool y x).

(** ** Numbers the code computes with *)

(** IEEE 754 binary64: 53 bits of precision, exponents below 1024; every
    operation rounds to nearest, ties to even. *)
Module Number.

Definition multiply : spec_float → spec_float → spec_float := SFmul 53 1024.
Definition add : spec_float → spec_float → spec_float := SFadd 53 1024.
Definition divide : spec_float → spec_float → spec_float := SFdiv 53 1024.

(** The number with the value of an integer (rounded when the integer
    has more than 53 significant bits). *)
Definition ofZ (n : Z) : spec_float := binary_normalize 53 1024 n 0 false.

Definition isFinite (x : spec_float) : bool :=
  match x with
  | S754_zero _ | S754_finite _ _ _ => true
  | S754_infinity _ | S754_nan => false
  end.

(** The rational a finite number stands for. *)
Definition valueOf (x : spec_float) : Q :=
  match x with
  | S754_finite s m e => inject_Z (cond_Zopp s (Zpos m)) * 2 ^ e
  | _ => 0
  end.

(** [Math.floor(x)] as an integer; [None] for NaN and the infinities,
    which [Math.floor] hands back unchanged. *)
Definition floor (x : spec_float) : option Z :=
  match x with
  | S754_zero _ => Some 0
  | S754_finite s m e => Some (Z.shiftl (cond_Zopp s (Zpos m)) e)
  | S754_infinity _ | S754_nan => None
  end.

(** A value [Math.random()] can return: a binary64 number [x] with
    [0 <= x < 1]. *)
Definition isRandom (x : spec_float) : Prop :=
  valid_binary 53 1024 x = true ∧ isFinite x = true
  ∧ (0 <= valueOf x)%Q ∧ (valueOf x < 1)%Q.

End Number.

(** [arr[i]] for an integer index: [None] is [undefined]. *)
Definition jsIndex {A} (arr : list A) (i : Z) : option A :=
  if bool_decide (i < 0) then None else arr !! Z.to_nat i.

(** [arr.length] as a number. *)
Definition arrayLength {A} (arr : list A) : spec_float :=
  Number.ofZ (Z.of_nat (length arr)).

(** [Math.floor(Math.random() * arr.length)], [random] being the value
    returned by [Math.random()]; [None] when the product is NaN or
    infinite. *)
Definition randomIndex {A} (random : spec_float) (arr : list A) : option Z :=
  Number.floor (Number.multiply random (arrayLength arr)).

(** ** app.js: [filterAnime] *)

Module App.

(** The callback given to [animeList.filter]: each [if (...) return false]
    of the source in order, then [return true]. *)
Definition keeps (st : FilterState) (anime : Anime) : bool :=
  if negb (showHentai st) && truthy (is_hentai anime) then false
  else if hideNotRated st
          && (negb (truthy (score anime)) || isNull (score anime)
              || isUndefined (score anime)) then false
  else if japaneseOnly st && strictEqFalse (is_japanese anime) then false
  else if genreBlockRejects st anime then false
  else true.

Definition filterAnime (st : FilterState) (animeList : list Anime)
  : list Anime :=
  List.filter (keeps st) animeList.

End App.

(** ** data_cn.js: [getRandomAnime] *)

Module DataCn.

Definition hasScore (anime : Anime) : bool :=
  typeofNumber (score anime) && negb (NumberIsNaN (score anime)).

(** [hasScore ? anime.score : 0] *)
Definition scoreValue (anime : Anime) : Q :=
  if hasScore anime then
    match score anime with JNum q => q | _ => 0%Q end
  else 0%Q.

(** The four checks that precede the [// Rating filter] comment. *)
Definition contentChecks (st : FilterState) (anime : Anime) : bool :=
  if negb (showHentai st) && truthy (is_hentai anime) then false
  else if hideNotRated st && negb (hasScore anime) then false
  else if japaneseOnly st && strictEqFalse (is_japanese anime) then false
  else if genreBlockRejects st anime then false
  else true.

(** The two checks under [// Rating filter]. *)
Definition ratingChecks (ratingFilter : Q) (anime : Anime) : bool :=
  if negb (hasScore anime) && Qltb 0 ratingFilter then false
  else if hasScore anime && Qltb (scoreValue anime) ratingFilter then false
  else true.

(** The whole callback given to [allAnime.filter]. *)
Definition qualifies (st : FilterState) (ratingFilter : Q) (anime : Anime)
  : bool :=
  if negb (showHentai st) && truthy (is_hentai anime) then false
  else if hideNotRated st && negb (hasScore anime) then false
  else if japaneseOnly st && strictEqFalse (is_japanese anime) then false
  else if genreBlockRejects st anime then false
  else if negb (hasScore anime) && Qltb 0 ratingFilter then false
  else if hasScore anime && Qltb (scoreValue anime) ratingFilter then false
  else true.

(** What the picker ends up rendering. *)
Inductive PickerView :=
  | NoAnimeFound
  | Displays (anime : Anime)
  | ErrorOccurred.

(** Where [displayRandomAnime(anime)] throws a [TypeError] on a record:
    [anime.score.toFixed(2)] for a truthy score that is not a number, and
    [capitalize(anime.season)] for a record without [season].  (The
    fields that [Anime] leaves out are taken as the season files give
    them.) *)
Definition displayThrows (anime : Anime) : bool :=
  (truthy (score anime) && negb (typeofNumber (score anime)))
  || match season anime with Some _ => false | None => true end.

(** [allAnime] is the value of [await loadAllAnimeData()], [random] the
    value of [Math.random()].  [displayRandomAnime(undefined)] throws on
    its first property access; every exception raised in
    [displayRandomAnime] ends in the enclosing [catch], which renders the
    error card. *)
Definition getRandomAnime (st : FilterState) (ratingFilter : Q)
    (allAnime : list Anime) (random : spec_float) : PickerView :=
  let filtered := List.filter (qualifies st ratingFilter) allAnime in
  if bool_decide (length filtered = 0%nat) then NoAnimeFound
  else
    match randomIndex random filtered ≫= jsIndex filtered with
    | Some randomAnime =>
        if displayThrows randomAnime then ErrorOccurred
        else Displays randomAnime
    | None => ErrorOccurred
    end.

End DataCn.

(** ** random.js: [getRandomAnime] *)

Module Random.

(** The callback given to [allAnimeCache.filter]; [active] is the set
    built from the active genre buttons. *)
Definition matches (active : gset string) (anime : Anime) : bool :=
  if bool_decide (0 < size active)%nat then
    if match genres anime with
       | None => true
       | Some gs => negb (existsb (λ genre, bool_decide (genre ∈ active)) gs)
       end
    then false else true
  else true.

Inductive Picked :=
  | PickedNull
  | PickedUndefined
  | PickedAnime (anime : Anime).

Definition getRandomAnime (active : gset string)
    (allAnimeCache : list Anime) (random : spec_float) : Picked :=
  let filteredAnime := List.filter (matches active) allAnimeCache in
  if bool_decide (length filteredAnime = 0%nat) then PickedNull
  else
    match randomIndex random filteredAnime ≫= jsIndex filteredAnime with
    | Some anime => PickedAnime anime
    | None => PickedUndefined
    end.

End Random.

(** ** The conditions of the filter contract, as propositions *)

(** The adult-content flag is not set. *)
Definition notAdult (a : Anime) : Prop := truthy (is_hentai a) = false.

(** A rating is present: the score field holds a number. *)
Definition ratingPresent (a : Anime) : Prop :=
  match score a with JNum _ => True | _ => False end.

(** The score field is truthy: a number other than zero (or, for values
    outside the data model, [true] or a non-empty string). *)
Definition scoreTruthy (a : Anime) : Prop := truthy (score a) = true.

(** Only an explicit [false] marks a non-Japanese production. *)
Definition notExplicitlyForeign (a : Anime) : Prop :=
  is_japanese a ≠ JBool false.

Definition genreList (a : Anime) : list string := default [] (genres a).

(** Condition 4. *)
Definition genreCondition (st : FilterState) (a : Anime) : Prop :=
  selectedGenres st ≠ ∅ →
  match filterMode st with
  | OR => ∃ g, g ∈ selectedGenres st ∧ g ∈ genreList a
  | AND => ∀ g, g ∈ selectedGenres st → g ∈ genreList a
  end.

(** The four conditions, parameterised by the reading of "rated". *)
Definition passesWith (rated : Anime → Prop) (st : FilterState) (a : Anime)
  : Prop :=
  (showHentai st = true ∨ notAdult a)
  ∧ (hideNotRated st = false ∨ rated a)
  ∧ (japaneseOnly st = false ∨ notExplicitlyForeign a)
  ∧ genreCondition st a.

(** The predicate as the contract words it (rating present). *)
Definition passesStated : FilterState → Anime → Prop :=
  passesWith ratingPresent.

(** The predicate [filterAnime] computes (score truthy). *)
(** The sampler's fifth condition as the contract words it: the rating
    is absent and the threshold is 0, or the rating is present and at
    least the threshold. *)
Definition ratingThresholdStated (minRating : Q) (a : Anime) : Prop :=
  (¬ ratingPresent a ∧ (minRating == 0)%Q)
  ∨ (∃ q, score a = JNum q ∧ (minRating <= q)%Q).

(** The condition the sampler applies: as stated, but an absent rating
    passes every threshold that is not above 0. *)
Definition ratingThreshold (minRating : Q) (a : Anime) : Prop :=
  (¬ ratingPresent a ∧ (minRating <= 0)%Q)
  ∨ (∃ q, score a = JNum q ∧ (minRating <= q)%Q).

(** A record that [displayRandomAnime] can render: it carries a season,
    and its score, when truthy, is a number. *)
Definition displayable (a : Anime) : Prop :=
  season a ≠ None ∧ (scoreTruthy a → ∃ q, score a = JNum q).

Definition passesTruthy : FilterState → Anime → Prop :=
  passesWith scoreTruthy.

(** ** [Array.prototype.sort] *)

(** [arr.sort(comparefn)] is a stable sort: [a] is placed before [b] when
    [comparefn(a, b) < 0], and elements that compare equal keep their
    relative order.  For a consistent comparator that determines the
    result, which is the list computed here by stable insertion. *)
Section JsSort.
Context {A : Type} (comparefn : A → A → Z).

Fixpoint insertSorted (x : A) (l : list A) : list A :=
  match l with
  | [] => [x]
  | y :: l' =>
      if bool_decide (comparefn x y ≤ 0) then x :: y :: l'
      else y :: insertSorted x l'
  end.

Definition jsSort (l : list A) : list A := foldr insertSorted [] l.

(** [a] may stand before [b]. *)
Definition inOrder (a b : A) : Prop := comparefn a b ≤ 0.
End JsSort.

(** The comparator of [.sort()] without argument, on strings: code-unit
    lexicographic order. *)
Definition defaultCompare (s1 s2 : string) : Z :=
  match String.compare s1 s2 with
  | Lt => -1
  | Eq => 0
  | Gt => 1
  end.

(** [genre && genre !== 'Hentai'] *)
Definition isFacet (genre : string) : bool :=
  negb (String.eqb genre "") && negb (String.eqb genre "Hentai").

(** ** app.js: [extractGenres] *)

Module AppGenres.

(** The body of [anime.genres.forEach] on the accumulating [Set]. *)
Definition addGenre (genreSet : gset string) (genre : string)
  : gset string :=
  if isFacet genre then {[genre]} ∪ genreSet else genreSet.

Definition addAnime (genreSet : gset string) (anime : Anime)
  : gset string :=
  match genres anime with
  | Some gs => foldl addGenre genreSet gs
  | None => genreSet
  end.

(** [allGenres = Array.from(genreSet).sort()] *)
Definition extractGenres (allAnimeData : list Anime) : list string :=
  jsSort defaultCompare (elements (foldl addAnime ∅ allAnimeData)).

End AppGenres.

(** ** random.js / data_cn.js: [loadGenres] *)

Module Genres.

(** A [Map] from genre to count, as the list of its entries in insertion
    order (the order [entries()] enumerates). *)
Fixpoint mapGet (m : list (string * Z)) (k : string) : option Z :=
  match m with
  | [] => None
  | (k', v) :: m' => if String.eqb k' k then Some v else mapGet m' k
  end.

(** [m.set(k, v)]: an existing key keeps its position. *)
Fixpoint mapSet (m : list (string * Z)) (k : string) (v : Z)
  : list (string * Z) :=
  match m with
  | [] => [(k, v)]
  | (k', v') :: m' =>
      if String.eqb k' k then (k', v) :: m' else (k', v') :: mapSet m' k v
  end.

(** [genreCounts.set(genre, (genreCounts.get(genre) || 0) + 1)] under the
    facet guard. *)
Definition countGenre (genreCounts : list (string * Z)) (genre : string)
  : list (string * Z) :=
  if isFacet genre then
    mapSet genreCounts genre (default 0 (mapGet genreCounts genre) + 1)
  else genreCounts.

Definition countAnime (genreCounts : list (string * Z)) (anime : Anime)
  : list (string * Z) :=
  match genres anime with
  | Some gs => foldl countGenre genreCounts gs
  | None => genreCounts
  end.

Definition genreCounts (allAnime : list Anime) : list (string * Z) :=
  foldl countAnime [] allAnime.

(** [(a, b) => b[1] - a[1]] *)
Definition byCountDesc (a b : string * Z) : Z := b.2 - a.2.

(** The entries of the counter, most frequent first. *)
Definition ranked (allAnime : list Anime) : list (string * Z) :=
  jsSort byCountDesc (genreCounts allAnime).

(** [allGenres], given the resolved [allAnime]. *)
Definition loadGenres (allAnime : list Anime) : list string :=
  jsSort defaultCompare (map fst (take 30 (ranked allAnime))).

(** The count held for [g], 0 when [g] is not a key. *)
Definition held (m : list (string * Z)) (g : string) : Z :=
  default 0 (mapGet m g).

End Genres.

(** A genre value that can become a facet. *)
Definition selectable (g : string) : Prop := g ≠ "" ∧ g ≠ "Hentai".

(** Every genre listed in the collection, record by record. *)
Definition genreOccurrences (allAnime : list Anime) : list string :=
  concat (map genreList allAnime).

(** Number of times [g] occurs in [gs]. *)
Definition occurrences (gs : list string) (g : string) : Z :=
  Z.of_nat (length (filter (λ x, x = g) gs)).

(** Number of times [g] is listed as a genre across the collection. *)
Definition frequency (allAnime : list Anime) (g : string) : Z :=
  occurrences (genreOccurrences allAnime) g.

(** What the counter holds once the genres [gs] have been fed to it. *)
Record counted (m : list (string * Z)) (gs : list string) : Prop := {
  counted_nodup : NoDup m.*1;
  counted_keys : ∀ g, g ∈ m.*1 ↔ isFacet g = true ∧ g ∈ gs;
  counted_held : ∀ g, isFacet g = true → Genres.held m g = occurrences gs g
}.

(** Alphabetical order of the displayed list. *)
Definition alphabetical (l : list string) : Prop := StronglySorted String.le l.

(** ** random.js / data_cn.js: [loadAllAnimeData] *)

Module Loader.

Record ManifestEntry := mkEntry {
  item_year : Z;
  item_season : string;
  item_count : Z
}.

(** What the request for one season file comes back with: [fetch]
    rejects, or it resolves to a response whose [ok] flag is given and
    whose [json()] yields an array ([None]: [json()] rejects). *)
Inductive FetchResult :=
  | NetworkError
  | HttpResponse (ok : bool) (body : option (list Anime)).

(** The network, keyed like the URL [data/${year}/${season}.json]. *)
Definition Network : Type := Z → string → FetchResult.

(** How a promise settles. *)
Inductive Outcome (A : Type) :=
  | Fulfilled (value : A)
  | Rejected (error : string).
Arguments Fulfilled {A} value.
Arguments Rejected {A} error.

#[export] Instance Outcome_ret : MRet Outcome := λ A x, Fulfilled x.
#[export] Instance Outcome_bind : MBind Outcome := λ A B f m,
  match m with
  | Fulfilled x => f x
  | Rejected e => Rejected e
  end.

(** [try { body } catch (error) { handler }] *)
Definition tryCatch {A} (body : Outcome A) (handler : string → Outcome A)
  : Outcome A :=
  match body with
  | Fulfilled x => Fulfilled x
  | Rejected e => handler e
  end.

Definition fetch (net : Network) (item : ManifestEntry)
  : Outcome (bool * option (list Anime)) :=
  match net (item_year item) (item_season item) with
  | NetworkError => Rejected "TypeError: Failed to fetch"
  | HttpResponse ok body => Fulfilled (ok, body)
  end.

Definition json (response : bool * option (list Anime))
  : Outcome (list Anime) :=
  match response.2 with
  | Some data => Fulfilled data
  | None => Rejected "SyntaxError"
  end.

(** [{...anime, year: item.year, season: item.season}] *)
Definition annotate (item : ManifestEntry) (anime : Anime) : Anime :=
  {| mal_id := mal_id anime;
     title := title anime;
     score := score anime;
     is_hentai := is_hentai anime;
     is_japanese := is_japanese anime;
     genres := genres anime;
     year := Some (item_year item);
     season := Some (item_season item) |}.

(** The async callback given to [manifest.map]. *)
Definition fetchSeason (net : Network) (item : ManifestEntry)
  : Outcome (list Anime) :=
  tryCatch
    (response ← fetch net item;
     if negb response.1 then mret []
     else
       seasonData ← json response;
       mret (map (annotate item) seasonData))
    (λ error, mret []).

(** [Promise.all]: one slot per input promise; the promise at index [i]
    writes slot [i] when it fulfils, whenever that happens; the first
    rejection rejects the whole.  [order] lists the indices in the order
    in which the promises settle; the result is [None] while some
    promise is still pending. *)
Definition settleSlot {A} (outcomes : list (Outcome A))
    (st : list (option A) * option string) (i : nat)
  : list (option A) * option string :=
  match outcomes !! i with
  | Some (Fulfilled v) => (<[i := Some v]> st.1, st.2)
  | Some (Rejected e) =>
      (st.1, match st.2 with Some e0 => Some e0 | None => Some e end)
  | None => st
  end.

Definition promiseAll {A} (outcomes : list (Outcome A)) (order : list nat)
  : option (Outcome (list A)) :=
  let st :=
    foldl (settleSlot outcomes) (replicate (length outcomes) None, None)
      order in
  match st.2 with
  | Some e => Some (Rejected e)
  | None => Fulfilled <$> mapM id st.1
  end.

(** The module-level variables, plus two ghost fields: the serial
    number of the next load and the log of every fetch issued. *)
Record State := mkState {
  manifest : list ManifestEntry;
  allAnimeCache : list Anime;
  allAnimePromise : option nat;
  loadsStarted : nat;
  fetchLog : list (Z * string)
}.

Definition partitionKey (item : ManifestEntry) : Z * string :=
  (item_year item, item_season item).

(** What a call hands back: a value available at once, or the in-flight
    load to await. *)
Inductive Returned :=
  | Resolved (value : list Anime)
  | Pending (load : nat).

(** One call, up to the point where it suspends: the three early
    returns, else the fan-out ([manifest.map] runs each callback up to
    its [fetch]) and the assignment of [allAnimePromise]. *)
Definition loadAllAnimeData (st : State) : Returned * State :=
  if bool_decide (0 < length (allAnimeCache st))%nat then
    (Resolved (allAnimeCache st), st)
  else
    match allAnimePromise st with
    | Some p => (Pending p, st)
    | None =>
        if bool_decide (length (manifest st) = 0%nat) then (Resolved [], st)
        else
          let p := loadsStarted st in
          (Pending p,
           {| manifest := manifest st;
              allAnimeCache := allAnimeCache st;
              allAnimePromise := Some p;
              loadsStarted := S p;
              fetchLog := fetchLog st ++ map partitionKey (manifest st) |})
    end.

(** The rest of the in-flight load, run once its fetches have settled in
    the given order: [allAnimeCache = allAnimeArrays.flat()], then the
    [finally] block.  Returns how the load's promise settles. *)
Definition settleLoad (net : Network) (order : list nat) (st : State)
  : option (Outcome (list Anime)) * State :=
  match allAnimePromise st with
  | None => (None, st)
  | Some p =>
      match promiseAll (map (fetchSeason net) (manifest st)) order with
      | None => (None, st)
      | Some (Fulfilled allAnimeArrays) =>
          let cache := concat allAnimeArrays in
          (Some (Fulfilled cache),
           {| manifest := manifest st;
              allAnimeCache := cache;
              allAnimePromise := None;
              loadsStarted := loadsStarted st;
              fetchLog := fetchLog st |})
      | Some (Rejected e) =>
          (Some (Rejected e),
           {| manifest := manifest st;
              allAnimeCache := allAnimeCache st;
              allAnimePromise := None;
              loadsStarted := loadsStarted st;
              fetchLog := fetchLog st |})
      end
  end.

(** The page as a transition system: calls to [loadAllAnimeData]
    interleaved with the settling of the in-flight load. *)
Inductive Event :=
  | Call
  | Settle (net : Network) (order : list nat).

Definition step (st : State) (ev : Event) : State :=
  match ev with
  | Call => (loadAllAnimeData st).2
  | Settle net order => (settleLoad net order st).2
  end.

Definition run (evs : list Event) (st : State) : State := foldl step st evs.

Definition initial (m : list ManifestEntry) : State :=
  mkState m [] None 0 [].

(** The records one season contributes: those of its file, annotated,
    when the file was fetched and parsed; none otherwise. *)
Definition seasonRecords (net : Network) (item : ManifestEntry)
  : list Anime :=
  match net (item_year item) (item_season item) with
  | HttpResponse true (Some data) => map (annotate item) data
  | _ => []
  end.

(** A season whose fetch fails: network error or non-success response. *)
Definition fetchFails (net : Network) (item : ManifestEntry) : Prop :=
  match net (item_year item) (item_season item) with
  | NetworkError => True
  | HttpResponse ok _ => ok = false
  end.

(** The seasons' records, in manifest order. *)
Definition merged (net : Network) (m : list ManifestEntry) : list Anime :=
  concat (map (seasonRecords net) m).

(** [c] is the record [a] of the season [item] as the contract wants it
    merged: every field of the file's record, with the season's year and
    season attached. *)
Definition annotatedFrom (item : ManifestEntry) (a c : Anime) : Prop :=
  year c = Some (item_year item) ∧ season c = Some (item_season item)
  ∧ mal_id c = mal_id a ∧ title c = title a ∧ score c = score a
  ∧ is_hentai c = is_hentai a ∧ is_japanese c = is_japanese a
  ∧ genres c = genres a.

(** [records] is what the season [item] contributes: its file's records
    one by one, in the file's order, when the file was fetched and
    parsed; nothing otherwise. *)
Definition contributes (net : Network) (item : ManifestEntry)
    (records : list Anime) : Prop :=
  match net (item_year item) (item_season item) with
  | HttpResponse true (Some data) => Forall2 (annotatedFrom item) data records
  | _ => records = []
  end.

(** A non-empty cache and an in-flight load never coexist. *)
Definition cacheExcludesLoad (st : State) : Prop :=
  allAnimeCache st ≠ [] → allAnimePromise st = None.

End Loader.

(** ** Rounding, as [SpecFloat] performs it *)

(** [m / 2 ^ n] rounded to the nearest integer, ties to the even one. *)
Definition rne (m n : Z) : Z :=
  let q := m / 2 ^ n in
  match 2 * (m mod 2 ^ n) ?= 2 ^ n with
  | Lt => q
  | Eq => if Z.even q then q else q + 1
  | Gt => q + 1
  end.

(** Where [m / 2 ^ n] lies between [m `div` 2 ^ n] and the next integer. *)
Definition locOf (m n : Z) : location :=
  if m mod 2 ^ n =? 0 then loc_Exact
  else loc_Inexact (2 * (m mod 2 ^ n) ?= 2 ^ n).

(** The second half of [binary_round_aux]: the rounded mantissa is
    brought back into range. *)
Definition finish (s : bool) (M E : Z) : spec_float :=
  let '(mrs, e) := shr_fexp 53 1024 M E loc_Exact in
  match shr_m mrs with
  | Z0 => S754_zero s
  | Zpos m => if e <=? 1024 - 53 then S754_finite s m e else S754_infinity s
  | Zneg _ => S754_nan
  end.

(** ** Sample data *)

Module Sample.

(** The spec's scenario records. *)
Definition animeA : Anime :=
  mkAnime 1 "A" (JNum (15 # 2)) (JBool false) (JBool true)
    (Some ["Action"; "Comedy"]) None None.
Definition animeB : Anime :=
  mkAnime 2 "B" JNull (JBool false) (JBool false)
    (Some ["Comedy"]) None None.

(** A record whose score is the number zero. *)
Definition zeroScore : Anime :=
  mkAnime 3 "Z" (JNum 0) (JBool false) (JBool true)
    (Some ["Action"]) None None.

(** An adult title without a score. *)
Definition adultUnrated : Anime :=
  mkAnime 4 "H" JNull (JBool true) (JBool false) (Some ["Hentai"]) None None.

(** The records A, B and Z as the loader hands them on, from the file of
    winter 2024. *)
Definition loadedA : Anime :=
  mkAnime 1 "A" (JNum (15 # 2)) (JBool false) (JBool true)
    (Some ["Action"; "Comedy"]) (Some 2024) (Some "winter").
Definition loadedB : Anime :=
  mkAnime 2 "B" JNull (JBool false) (JBool false)
    (Some ["Comedy"]) (Some 2024) (Some "winter").
Definition loadedZ : Anime :=
  mkAnime 3 "Z" (JNum 0) (JBool false) (JBool true)
    (Some ["Action"]) (Some 2024) (Some "winter").

(** Every toggle permissive, no genre selected. *)
Definition permissive : FilterState := mkFilterState true false false ∅ OR.

(** Values of [Math.random()]: 0.5, 0.75 and 0.3333333333333333 (the
    double nearest to 1/3, which lies below it). *)
Definition half : spec_float := S754_finite false 4503599627370496 (-53).
Definition threeQuarters : spec_float :=
  S754_finite false 6755399441055744 (-53).
Definition third : spec_float := S754_finite false 6004799503160661 (-54).

(** The picker's defaults: adult content hidden, unrated hidden,
    Japanese only, no genre selected, OR mode. *)
Definition defaults : FilterState := mkFilterState false true true ∅ OR.

Definition actionOnly : FilterState :=
  mkFilterState false true true {["Action"]} OR.

(** A season listing 31 distinct genres, "Romance" twice. *)
Definition crowded : list Anime :=
  [ mkAnime 10 "C1" JNull (JBool false) (JBool true)
      (Some ["Action"; "Adventure"; "Avant Garde"; "Award Winning";
             "Boys Love"; "Comedy"; "Drama"; "Ecchi"; "Erotica"; "Fantasy";
             "Girls Love"; "Gourmet"; "Horror"; "Mystery"; "Romance";
             "Sci-Fi"]) None None;
    mkAnime 11 "C2" JNull (JBool false) (JBool true)
      (Some ["Slice of Life"; "Sports"; "Supernatural"; "Suspense";
             "Mecha"; "Music"; "Parody"; "Samurai"; "School"; "Space";
             "Vampire"; "Military"; "Historical"; "Isekai"; "Zombies";
             "Romance"; "Hentai"; ""]) None None ].

End Sample.

(** The reading of "computed at most once per process lifetime": once a
    load has completed, whatever happens next, the fetches issued over
    the whole run are one per partition. *)
Definition fetchedAtMostOnce : Prop :=
  ∀ (m : list Loader.ManifestEntry) (net : Loader.Network)
    (order : list nat) (evs : list Loader.Event),
    order ≡ₚ seq 0 (length m) →
    Loader.fetchLog
      (Loader.run (Loader.Call :: Loader.Settle net order :: evs)
         (Loader.initial m))
    = map Loader.partitionKey m.

Module LoaderSample.
Import Loader.

Definition winter2024 : ManifestEntry := mkEntry 2024 "winter" 2.
Definition spring2024 : ManifestEntry := mkEntry 2024 "spring" 1.

(** Every request fails. *)
Definition offline : Network := λ _ _, NetworkError.

(** Winter 2024 holds the two scenario records; spring 2024 answers
    with a non-success response. *)
Definition winterOnly : Network := λ y s,
  if bool_decide (y = 2024) && String.eqb s "winter"
  then HttpResponse true (Some [Sample.animeA; Sample.animeB])
  else HttpResponse false None.

(** Winter 2024 holds A and B, spring 2024 holds Z. *)
Definition bothSeasons : Network := λ y s,
  if bool_decide (y = 2024) && String.eqb s "winter"
  then HttpResponse true (Some [Sample.animeA; Sample.animeB])
  else if bool_decide (y = 2024) && String.eqb s "spring"
  then HttpResponse true (Some [Sample.zeroScore])
  else HttpResponse false None.
End LoaderSample.

(** ** Decidability of the contract's predicate *)

#[export] Instance ratingPresent_dec a : Decision (ratingPresent a).
Proof. unfold ratingPresent. destruct (score a); apply _. Defined.

#[export] Instance scoreTruthy_dec a : Decision (scoreTruthy a).
Proof. unfold scoreTruthy. apply _. Defined.

#[export] Instance notExplicitlyForeign_dec a :
  Decision (notExplicitlyForeign a).
Proof.
  unfold notExplicitlyForeign.
  destruct (is_japanese a) as [| |[]| | |];
    first [by right; intros H; apply H | by left].
Defined.

#[export] Instance genreCondition_dec st a : Decision (genreCondition st a).
Proof.
  unfold genreCondition. apply impl_dec; [apply _|].
  destruct (filterMode st).
  - exact (set_Exists_dec (λ g, g ∈ genreList a) (selectedGenres st)).
  - exact (set_Forall_dec (λ g, g ∈ genreList a) (selectedGenres st)).
Defined.

#[export] Instance passesWith_dec rated `{!∀ a, Decision (rated a)} st a :
  Decision (passesWith rated st a).
Proof. unfold passesWith, notAdult. apply _. Defined.

(** ** data_cn.js: [calculateMovingAverage] *)

Module Charts.

(** [x / y] for an integer [y]. *)
Definition divide (x : spec_float) (y : Z) : spec_float :=
  Number.divide x (Number.ofZ y).

(** [arr.slice(start, end)] for integer arguments. *)
Definition slice {A} (arr : list A) (start final : Z) : list A :=
  let len := Z.of_nat (length arr) in
  let k := if bool_decide (start < 0) then Z.max (len + start) 0
           else Z.min start len in
  let e := if bool_decide (final < 0) then Z.max (len + final) 0
           else Z.min final len in
  take (Z.to_nat (e - k)) (drop (Z.to_nat k) arr).

(** [.reduce((a, b) => a + b, 0)]: the sum from the left, starting at
    [+0], each addition rounded. *)
Definition total (l : list spec_float) : spec_float :=
  foldl Number.add (S754_zero false) l.

(** The value pushed at index [i], for an integer [windowSize] (the
    rating chart passes 4); [None] is [null]. *)
Definition averageAt (data : list spec_float) (windowSize : Z) (i : nat)
  : option spec_float :=
  if bool_decide (Z.of_nat i < windowSize - 1) then None
  else
    let sum :=
      total (slice data (Z.of_nat i - windowSize + 1) (Z.of_nat i + 1)) in
    Some (divide sum windowSize).

(** The loop runs [i] over [0 .. data.length - 1]. *)
Definition calculateMovingAverage (data : list spec_float) (windowSize : Z)
  : list (option spec_float) :=
  map (averageAt data windowSize) (seq 0 (length data)).

End Charts.

(** The [w] values of [data] that end at index [i]. *)
Definition window {A} (data : list A) (w i : nat) : list A :=
  take w (drop (S i - w) data).

(** The ratings 7.45, 7.55, 7.6 and 7.3 as binary64 numbers. *)
Definition fourRatings : list spec_float :=
  [ S754_finite false 8387954305977549 (-50);
    S754_finite false 8500544296661811 (-50);
    S754_finite false 8556839292003942 (-50);
    S754_finite false 8219069319951155 (-50) ].

(** ** app.js: [shouldHideNotRatedByDefault] *)

Module Season.

(** [c.toLowerCase()] on a code unit below 128. *)
Definition lowerUnit (c : Ascii.ascii) : Ascii.ascii :=
  let n := Ascii.nat_of_ascii c in
  if bool_decide (65 ≤ n ≤ 90)%nat then Ascii.ascii_of_nat (n + 32) else c.

Fixpoint toLowerCase (s : string) : string :=
  match s with
  | EmptyString => EmptyString
  | String c s' => String (lowerUnit c) (toLowerCase s')
  end.

(** [seasonMonths[key]]; [None] is [undefined]. *)
Definition seasonMonths (key : string) : option Z :=
  if String.eqb key "winter" then Some 1
  else if String.eqb key "spring" then Some 4
  else if String.eqb key "summer" then Some 7
  else if String.eqb key "fall" then Some 10
  else None.

(** [x < y] and [x > y] where [y] may be [undefined]: a comparison with
    [undefined] is false. *)
Definition ltMaybe (x : Z) (y : option Z) : bool :=
  match y with Some y => bool_decide (x < y) | None => false end.
Definition gtMaybe (x : Z) (y : option Z) : bool :=
  match y with Some y => bool_decide (x > y) | None => false end.

(** [year === currentYear] *)
Definition eqMaybe (x : Z) (y : option Z) : bool :=
  match y with Some y => bool_decide (x = y) | None => false end.

(** [currentYear] and [currentMonth] (1-12) are read from [new Date()];
    [year] is the result of [parseInt], [None] standing for [NaN]. *)
Definition shouldHideNotRatedByDefault (currentYear currentMonth : Z)
    (year : option Z) (season : string) : bool :=
  let seasonStartMonth := seasonMonths (toLowerCase season) in
  if ltMaybe currentYear year then false
  else if gtMaybe currentYear year then true
  else if eqMaybe currentYear year then
    if ltMaybe currentMonth seasonStartMonth then false
    else
      let isCurrentSeason :=
        if String.eqb season "winter"
           && (bool_decide (currentMonth >= 1) && bool_decide (currentMonth <= 3))
        then true
        else if String.eqb season "spring"
                && (bool_decide (currentMonth >= 4)
                    && bool_decide (currentMonth <= 6))
        then true
        else if String.eqb season "summer"
                && (bool_decide (currentMonth >= 7)
                    && bool_decide (currentMonth <= 9))
        then true
        else if String.eqb season "fall"
                && (bool_decide (currentMonth >= 10)
                    && bool_decide (currentMonth <= 12))
        then true
        else false in
      if isCurrentSeason then gtMaybe currentMonth seasonStartMonth
      else true
  else true.

(** The four partitions of a year. *)
Definition knownSeason (season : string) : Prop :=
  season ∈ ["winter"; "spring"; "summer"; "fall"].

End Season.

(** ** app.js / data_cn.js: the genre buttons of [renderGenreFilters] *)

(** The click handler of a genre button.  The buttons are rebuilt after
    every click, so the [isSelected] a handler captured is the genre's
    membership at the time of the click. *)
Definition toggleGenre (genre : string) (selectedGenres : gset string)
  : gset string :=
  let isSelected := bool_decide (genre ∈ selectedGenres) in
  if isSelected then selectedGenres ∖ {[genre]}
  else {[genre]} ∪ selectedGenres.

(** The page state with another selection, and with another mode. *)
Definition withSelection (st : FilterState) (sel : gset string)
  : FilterState :=
  mkFilterState (showHentai st) (hideNotRated st) (japaneseOnly st) sel
    (filterMode st).
Definition withMode (st : FilterState) (mode : FilterMode) : FilterState :=
  mkFilterState (showHentai st) (hideNotRated st) (japaneseOnly st)
    (selectedGenres st) mode.

(** [st'] hides nothing that [st] shows: same genres and mode, each
    content toggle at least as permissive. *)
Definition relaxes (st st' : FilterState) : Prop :=
  selectedGenres st' = selectedGenres st
  ∧ filterMode st' = filterMode st
  ∧ (showHentai st = true → showHentai st' = true)
  ∧ (hideNotRated st' = true → hideNotRated st = true)
  ∧ (japaneseOnly st' = true → japaneseOnly st = true).

(** ** app.js: [displayYears] and [createYearSection] *)

Module Home.
Import Loader.

(** [yearGroups], the object keyed by year, after the [forEach]. *)
Definition groupByYear (manifest : list ManifestEntry)
  : gmap Z (list ManifestEntry) :=
  foldl
    (λ yearGroups item,
       <[item_year item :=
           default [] (yearGroups !! item_year item) ++ [item]]> yearGroups)
    ∅ manifest.

Definition seasonOrder : list string := ["winter"; "spring"; "summer"; "fall"].

(** [arr.indexOf(x)] *)
Fixpoint indexOf (arr : list string) (x : string) : Z :=
  match arr with
  | [] => -1
  | y :: arr' =>
      if String.eqb y x then 0
      else
        let r := indexOf arr' x in
        if bool_decide (r < 0) then -1 else r + 1
  end.

(** [(a, b) => seasonOrder.indexOf(a.season) - seasonOrder.indexOf(b.season)] *)
Definition bySeason (a b : ManifestEntry) : Z :=
  indexOf seasonOrder (item_season a) - indexOf seasonOrder (item_season b).

(** [(a, b) => b - a] on the keys, which are the years. *)
Definition byYearDesc (a b : Z) : Z := b - a.

(** The year sections in the order they are appended, each with its
    seasons in the order their buttons are laid out.  The keys of
    [yearGroups] are distinct, so the sorted list of years does not depend
    on the order in which [Object.keys] enumerates them. *)
Definition displayYears (manifest : list ManifestEntry)
  : list (Z * list ManifestEntry) :=
  let yearGroups := groupByYear manifest in
  let years := jsSort byYearDesc (elements (dom yearGroups)) in
  map (λ year, (year, jsSort bySeason (default [] (yearGroups !! year))))
    years.

(** The manifest entries of one year, in manifest order. *)
Definition ofYear (manifest : list ManifestEntry) (year : Z)
  : list ManifestEntry :=
  filter (λ item, item_year item = year) manifest.

(** Position of an entry's season on the page; unknown names come first. *)
Definition seasonRank (item : ManifestEntry) : Z :=
  indexOf seasonOrder (item_season item).

End Home.

(** ** app.js: [handleHashNavigation] and [showAnimePage] *)

Module Nav.

(** The characters [-] and [#]. *)
Definition dash : Ascii.ascii := Ascii.ascii_of_nat 45.
Definition hashSign : Ascii.ascii := Ascii.ascii_of_nat 35.

(** [s.split(sep)] for a one-character separator. *)
Fixpoint split (sep : Ascii.ascii) (s : string) : list string :=
  match s with
  | EmptyString => [EmptyString]
  | String c s' =>
      if Ascii.eqb c sep then EmptyString :: split sep s'
      else
        match split sep s' with
        | part :: parts => String c part :: parts
        | [] => [String c EmptyString]
        end
  end.

(** [s.substring(1)] *)
Definition substring1 (s : string) : string :=
  match s with
  | EmptyString => EmptyString
  | String _ s' => s'
  end.

(** Truthiness of a string. *)
Definition nonEmpty (s : string) : bool := negb (String.eqb s "").

Inductive Page :=
  | HomePage
  | AnimePage (year season : string).

(** [locationHash] is the value of [window.location.hash]; the
    destructuring [const [year, season] = hash.split('-')] reads the first
    two parts, a missing part being [undefined]. *)
Definition handleHashNavigation (locationHash : string) : Page :=
  let hash := substring1 locationHash in
  if nonEmpty hash then
    let parts := split dash hash in
    match parts !! 0%nat, parts !! 1%nat with
    | Some year, Some season =>
        if nonEmpty year && nonEmpty season then AnimePage year season
        else HomePage
    | _, _ => HomePage
    end
  else HomePage.

(** The browser's side of [window.location.hash = value] (URL Standard,
    fragment state), on the UTF-8 bytes of the string: one leading [#] is
    dropped, tabs and newlines are removed, and every byte of the
    fragment percent-encode set (C0 controls, space, the double quote,
    [<], [>], the backquote and everything above [~]) is written as
    [%XX]. *)
Definition removedByParser (c : Ascii.ascii) : bool :=
  let n := Ascii.nat_of_ascii c in
  (n =? 9)%nat || (n =? 10)%nat || (n =? 13)%nat.

Definition percentEncoded (c : Ascii.ascii) : bool :=
  let n := Ascii.nat_of_ascii c in
  (n <=? 32)%nat || (n =? 34)%nat || (n =? 60)%nat || (n =? 62)%nat
  || (n =? 96)%nat || (126 <? n)%nat.

Definition hexDigit (n : nat) : Ascii.ascii :=
  Ascii.ascii_of_nat (if (n <? 10)%nat then 48 + n else 55 + n).

Definition percentEncode (c : Ascii.ascii) : string :=
  let n := Ascii.nat_of_ascii c in
  String (Ascii.ascii_of_nat 37)
    (String (hexDigit (n / 16)) (String (hexDigit (n mod 16)) EmptyString)).

Fixpoint encodeFragment (input : string) : string :=
  match input with
  | EmptyString => EmptyString
  | String c rest =>
      if removedByParser c then encodeFragment rest
      else if percentEncoded c
      then (percentEncode c ++ encodeFragment rest)%string
      else String c (encodeFragment rest)
  end.

(** What [window.location.hash] reads after [value] was assigned to it:
    [#] and the fragment, or the empty string for an empty fragment. *)
Definition assignHash (value : string) : string :=
  let input :=
    match value with
    | String c rest => if Ascii.eqb c hashSign then rest else value
    | EmptyString => value
    end in
  match encodeFragment input with
  | EmptyString => EmptyString
  | fragment => String hashSign fragment
  end.

(** [window.location.hash] as read back after [showAnimePage] has
    assigned [`${year}-${season}`] to it. *)
Definition hashOfAnimePage (year season : string) : string :=
  assignHash (year ++ String dash season).

(** The characters the assignment leaves as they are. *)
Fixpoint keptVerbatim (s : string) : Prop :=
  match s with
  | EmptyString => True
  | String c s' =>
      removedByParser c = false ∧ percentEncoded c = false ∧ keptVerbatim s'
  end.

(** [c] occurs in [s]. *)
Fixpoint occursIn (c : Ascii.ascii) (s : string) : Prop :=
  match s with
  | EmptyString => False
  | String c' s' => c' = c ∨ occursIn c s'
  end.

End Nav.

(** ** random.js / data_cn.js: [loadManifest] and [loadGenres] *)

Module Picker.
Import Loader.

(** What the request for the manifest comes back with. *)
Inductive ManifestFetch :=
  | ManifestNetworkError
  | ManifestResponse (ok : bool) (body : option (list ManifestEntry)).

(** The picker page: the loader's variables, the genre buttons and the
    message put up by [showError], if any. *)
Record Page := mkPage {
  loader : State;
  allGenres : list string;
  errorShown : option string
}.

(** [manifest = await response.json()] *)
Definition withManifest (st : State) (body : list ManifestEntry) : State :=
  mkState body (allAnimeCache st) (allAnimePromise st) (loadsStarted st)
    (fetchLog st).

(** [loadGenres]: awaits [loadAllAnimeData()], whose in-flight load
    settles with the season responses [net] in the order [order], then
    counts the genres; a rejection is caught and reported. *)
Definition loadGenres (net : Network) (order : list nat) (page : Page)
  : Page :=
  let '(ret, st) := loadAllAnimeData (loader page) in
  match ret with
  | Resolved allAnime =>
      mkPage st (Genres.loadGenres allAnime) (errorShown page)
  | Pending _ =>
      match settleLoad net order st with
      | (Some (Fulfilled allAnime), st') =>
          mkPage st' (Genres.loadGenres allAnime) (errorShown page)
      | (Some (Rejected _), st') =>
          mkPage st' (allGenres page)
            (Some "Failed to load genres. Please refresh the page.")
      | (None, st') => mkPage st' (allGenres page) (errorShown page)
      end
  end.

(** [loadManifest]: a failed or non-success manifest request, or a body
    that does not parse, ends in the [catch]; otherwise the manifest is
    stored and [loadGenres] awaited. *)
Definition loadManifest (response : ManifestFetch) (net : Network)
    (order : list nat) (page : Page) : Page :=
  match response with
  | ManifestResponse true (Some body) =>
      loadGenres net order
        (mkPage (withManifest (loader page) body) (allGenres page)
           (errorShown page))
  | _ =>
      mkPage (loader page) (allGenres page)
        (Some "Failed to load anime data. Please refresh the page.")
  end.

(** The page before [DOMContentLoaded]. *)
Definition blank : Page := mkPage (initial []) [] None.

(** The manifest arrived: success status and a body that parses. *)
Definition manifestArrived (response : ManifestFetch) : Prop :=
  ∃ body, response = ManifestResponse true (Some body).

End Picker.

(** ** app.js: parts of [createAnimeCard] *)

Module Card.

(** A JavaScript string, as the sequence of its UTF-16 code units:
    [.length] counts them and [.substring] cuts between them. *)
Definition JsString : Type := list N.

(** A string literal of ASCII characters. *)
Definition literal (s : string) : JsString :=
  map Ascii.N_of_ascii (String.list_ascii_of_string s).

(** [anime.synopsis || 'No synopsis available.']; [None] is a missing or
    null field. *)
Definition synopsisOrDefault (field : option JsString) : JsString :=
  match field with
  | Some (c :: s) => c :: s
  | Some [] | None => literal "No synopsis available."
  end.

Definition synopsisPreview (field : option JsString) : JsString :=
  let synopsis := synopsisOrDefault field in
  if bool_decide (150 < length synopsis)%nat
  then take 150 synopsis ++ literal "..."
  else synopsis.

Definition showReadMore (field : option JsString) : bool :=
  let synopsis := synopsisOrDefault field in
  bool_decide (150 < length synopsis)%nat.

(** [anime.score ? `... ${anime.score}` : '... Not rated'] *)
Inductive ScoreLabel :=
  | Star (score : JsVal)
  | NotRated.

Definition scoreLabel (anime : Anime) : ScoreLabel :=
  if truthy (score anime) then Star (score anime) else NotRated.

End Card.

(** * Properties *)

(** ** Auxiliary facts on lists, sets and numbers *)

Lemma List_filter_stdpp {A} (f : A → bool) (P : A → Prop)
    `{!∀ x, Decision (P x)} (l : list A) :
  (∀ x, f x = true ↔ P x) → List.filter f l = filter P l.
Proof.
  intros Hf. induction l as [|x l IH]; [done|].
  cbn [List.filter]. destruct (f x) eqn:Hx.
  - rewrite filter_cons_True by (by apply Hf). by f_equal.
  - rewrite filter_cons_False; [done|].
    intros HP. apply Hf in HP. congruence.
Qed.

Lemma List_filter_nil_iff {A} (f : A → bool) (l : list A) :
  List.filter f l = [] ↔ ∀ x, x ∈ l → f x = false.
Proof.
  induction l as [|x l IH]; cbn [List.filter].
  - split; [|done]. intros _ x Hx. by apply elem_of_nil in Hx.
  - destruct (f x) eqn:Hx.
    + split; [done|]. intros H.
      specialize (H x (list_elem_of_here _ _)). congruence.
    + rewrite IH. split.
      * intros H y [->|Hy]%elem_of_cons; auto.
      * intros H y Hy. apply H. by right.
Qed.

Lemma size_pos_iff (X : gset string) : (0 < size X)%nat ↔ X ≠ ∅.
Proof.
  rewrite <- (leibniz_equiv_iff X ∅), <- size_non_empty_iff. lia.
Qed.

Lemma someSelected_spec (sel : gset string) (gs : list string) :
  someSelected sel (includes gs) = true ↔ ∃ g, g ∈ sel ∧ g ∈ gs.
Proof.
  unfold someSelected, includes. rewrite existsb_exists. split.
  - intros (g & Hin & Hg). exists g. split.
    + by apply elem_of_elements, list_elem_of_In.
    + by apply bool_decide_eq_true in Hg.
  - intros (g & Hsel & Hg). exists g. split.
    + by apply list_elem_of_In, elem_of_elements.
    + by apply bool_decide_eq_true.
Qed.

Lemma everySelected_spec (sel : gset string) (gs : list string) :
  everySelected sel (includes gs) = true ↔ ∀ g, g ∈ sel → g ∈ gs.
Proof.
  unfold everySelected, includes. rewrite forallb_forall. split.
  - intros H g Hg. eapply bool_decide_eq_true, H.
    by apply list_elem_of_In, elem_of_elements.
  - intros H g Hg. apply bool_decide_eq_true, H.
    by apply elem_of_elements, list_elem_of_In.
Qed.

Lemma genreBlockRejects_spec (st : FilterState) (a : Anime) :
  genreBlockRejects st a = false ↔ genreCondition st a.
Proof.
  unfold genreBlockRejects, genreCondition, genreList.
  case_bool_decide as Hsz; rewrite size_pos_iff in Hsz.
  - destruct (filterMode st); rewrite negb_false_iff.
    + rewrite someSelected_spec. naive_solver.
    + rewrite everySelected_spec. naive_solver.
  - split; [|done]. intros _ Hne. by destruct Hsz.
Qed.

Lemma strictEqFalse_spec (v : JsVal) :
  strictEqFalse v = false ↔ v ≠ JBool false.
Proof. destruct v as [| |[]| | |]; naive_solver. Qed.

(** The redundant [=== null] and [=== undefined] tests of the rating check
    add nothing to [!anime.score]. *)
Lemma notRated_check (v : JsVal) :
  negb (truthy v) || isNull v || isUndefined v = negb (truthy v).
Proof. destruct v; cbn; by rewrite ?orb_false_r. Qed.

Lemma hasScore_spec (a : Anime) :
  DataCn.hasScore a = true ↔ ratingPresent a.
Proof.
  unfold DataCn.hasScore, ratingPresent. destruct (score a); cbn; naive_solver.
Qed.

(** ** The filter of the season browser *)

Lemma keeps_spec (st : FilterState) (a : Anime) :
  App.keeps st a = true ↔ passesTruthy st a.
Proof.
  unfold App.keeps, passesTruthy, passesWith, notAdult, scoreTruthy,
    notExplicitlyForeign.
  rewrite notRated_check.
  rewrite <- genreBlockRejects_spec, <- strictEqFalse_spec.
  destruct (showHentai st), (hideNotRated st), (japaneseOnly st),
    (truthy (is_hentai a)), (truthy (score a)),
    (strictEqFalse (is_japanese a)), (genreBlockRejects st a);
    cbn; intuition congruence.
Qed.

Lemma contentChecks_spec (st : FilterState) (a : Anime) :
  DataCn.contentChecks st a = true ↔ passesStated st a.
Proof.
  unfold DataCn.contentChecks, passesStated, passesWith, notAdult,
    notExplicitlyForeign.
  rewrite <- genreBlockRejects_spec, <- strictEqFalse_spec, <- hasScore_spec.
  destruct (showHentai st), (hideNotRated st), (japaneseOnly st),
    (truthy (is_hentai a)), (DataCn.hasScore a),
    (strictEqFalse (is_japanese a)), (genreBlockRejects st a);
    cbn; intuition congruence.
Qed.

Lemma qualifies_split (st : FilterState) (rf : Q) (a : Anime) :
  DataCn.qualifies st rf a
  = DataCn.contentChecks st a && DataCn.ratingChecks rf a.
Proof.
  unfold DataCn.qualifies, DataCn.contentChecks, DataCn.ratingChecks.
  repeat (case_match; try done).
Qed.

Lemma Qltb_spec (x y : Q) : Qltb x y = true ↔ (x < y)%Q.
Proof.
  unfold Qltb. rewrite negb_true_iff, <- not_true_iff_false, Qle_bool_iff.
  split; [apply Qnot_le_lt | apply Qlt_not_le].
Qed.

(** ** Rounding to binary64 *)

Lemma iter_pos_nat {A} (f : A → A) (p : positive) (x : A) :
  SpecFloat.iter_pos f p x = Nat.iter (Pos.to_nat p) f x.
Proof.
  revert x. induction p as [p IH|p IH|]; intros x; cbn [SpecFloat.iter_pos].
  - rewrite !IH, Pos2Nat.inj_xI.
    replace (S (2 * Pos.to_nat p))%nat
      with (Pos.to_nat p + (Pos.to_nat p + 1))%nat by lia.
    rewrite !Nat.iter_add. done.
  - rewrite !IH, Pos2Nat.inj_xO.
    replace (2 * Pos.to_nat p)%nat
      with (Pos.to_nat p + Pos.to_nat p)%nat by lia.
    by rewrite Nat.iter_add.
  - done.
Qed.

Lemma shr_1_spec (mrs : shr_record) :
  0 ≤ shr_m mrs →
  shr_m (shr_1 mrs) = shr_m mrs / 2
  ∧ shr_r (shr_1 mrs) = Z.odd (shr_m mrs)
  ∧ shr_s (shr_1 mrs) = shr_r mrs || shr_s mrs.
Proof.
  destruct mrs as [m r s]. cbn [shr_m shr_r shr_s]. intros Hm.
  destruct m as [|[p|p|]|p]; cbn [shr_1 shr_m shr_r shr_s]; try lia;
    split_and!; try done.
  - rewrite Pos2Z.inj_xI. apply (Z.div_unique _ _ _ 1); lia.
  - rewrite Pos2Z.inj_xO. apply (Z.div_unique _ _ _ 0); lia.
Qed.

Lemma shr_iter_spec (m : Z) (k : nat) :
  0 ≤ m →
  let mrs := Nat.iter k shr_1 (Build_shr_record m false false) in
  shr_m mrs = m / 2 ^ Z.of_nat k
  ∧ loc_of_shr_record mrs = locOf m (Z.of_nat k).
Proof.
  intros Hm. cbn zeta. induction k as [|k IH].
  - cbn [Nat.iter shr_m]. unfold locOf. cbn [Z.of_nat].
    by rewrite Z.pow_0_r, Z.div_1_r, Z.mod_1_r.
  - rewrite Nat.iter_succ.
    set (mrs := Nat.iter k shr_1 _) in *. destruct IH as [IHm IHl].
    destruct (shr_1_spec mrs) as (H1 & H2 & H3).
    { rewrite IHm. apply Z.div_pos; lia. }
    unfold locOf at 1. rewrite Nat2Z.inj_succ, Z.pow_succ_r by lia.
    set (P := 2 ^ Z.of_nat k) in *.
    assert (0 < P) as HP by (apply Z.pow_pos_nonneg; lia).
    split.
    + rewrite H1, IHm, Z.div_div by lia. f_equal. lia.
    + pose proof (Z.div_mod m P ltac:(lia)) as Hdm.
      pose proof (Z.mod_pos_bound m P HP) as Hb.
      pose proof (Z.div_mod (m / P) 2 ltac:(lia)) as Hdm2.
      pose proof (Z.mod_pos_bound (m / P) 2 ltac:(lia)) as Hb2.
      assert (m mod (2 * P) = (m / P) mod 2 * P + m mod P) as Hmod.
      { symmetry. apply (Z.mod_unique _ _ (m / P / 2)); [nia|nia]. }
      assert (shr_r mrs || shr_s mrs = negb (m mod P =? 0)) as Hs.
      { clear -IHl. unfold locOf in IHl. fold P in IHl. clearbody mrs.
        destruct mrs as [m' [] []], (m mod P =? 0); done. }
      rewrite Hmod.
      destruct (shr_1 mrs) as [m1 r1 s1]. cbn [shr_m shr_r shr_s] in *.
      subst r1 s1. rewrite Hs, IHm, Zodd_mod.
      destruct (Z.eqb_spec (m mod P) 0) as [Hz|Hz];
        destruct (Z.eqb_spec ((m / P) mod 2) 1) as [Ho|Ho];
        cbn [negb loc_of_shr_record].
      * rewrite Ho, Hz. destruct (Z.eqb_spec (1 * P + 0) 0); [lia|].
        f_equal. symmetry. apply Z.compare_eq_iff. lia.
      * assert ((m / P) mod 2 = 0) as -> by lia. rewrite Hz. done.
      * rewrite Ho. destruct (Z.eqb_spec (1 * P + m mod P) 0); [lia|].
        f_equal. symmetry. apply Z.compare_gt_iff. lia.
      * assert ((m / P) mod 2 = 0) as -> by lia.
        destruct (Z.eqb_spec (0 * P + m mod P) 0); [lia|].
        f_equal. symmetry. apply Z.compare_lt_iff. lia.
Qed.

Lemma round_shr (m : Z) (p : positive) :
  0 ≤ m →
  let mrs := SpecFloat.iter_pos shr_1 p (Build_shr_record m false false) in
  round_nearest_even (shr_m mrs) (loc_of_shr_record mrs) = rne m (Zpos p).
Proof.
  intros Hm. cbn zeta. rewrite iter_pos_nat.
  destruct (shr_iter_spec m (Pos.to_nat p) Hm) as [H1 H2].
  rewrite H1, H2, positive_nat_Z. unfold locOf, rne.
  assert (0 < 2 ^ Z.pos p) as HP by (apply Z.pow_pos_nonneg; lia).
  pose proof (Z.mod_pos_bound m (2 ^ Z.pos p) HP) as Hb.
  destruct (Z.eqb_spec (m mod 2 ^ Z.pos p) 0) as [Hz|Hz].
  - rewrite Hz. cbn [round_nearest_even].
    destruct (Z.compare_spec (2 * 0) (2 ^ Z.pos p)); try lia; done.
  - cbn [round_nearest_even]. by destruct (_ ?= _).
Qed.

Lemma digits2_pos_bounds (p : positive) :
  2 ^ (Zpos (digits2_pos p) - 1) ≤ Zpos p < 2 ^ Zpos (digits2_pos p).
Proof.
  induction p as [p IH|p IH|]; cbn [digits2_pos]; [| |done].
  - rewrite Pos2Z.inj_succ, Pos2Z.inj_xI.
    set (d := Z.pos (digits2_pos p)) in *.
    replace (Z.succ d - 1) with (Z.succ (d - 1)) by lia.
    rewrite !Z.pow_succ_r by lia. revert IH.
    generalize (2 ^ (d - 1)) (2 ^ d). lia.
  - rewrite Pos2Z.inj_succ, (Pos2Z.inj_xO p).
    set (d := Z.pos (digits2_pos p)) in *.
    replace (Z.succ d - 1) with (Z.succ (d - 1)) by lia.
    rewrite !Z.pow_succ_r by lia. revert IH.
    generalize (2 ^ (d - 1)) (2 ^ d). lia.
Qed.

(** The number of binary digits is determined by the bounds. *)
Lemma digits2_pos_unique (p : positive) (d : Z) :
  2 ^ (d - 1) ≤ Zpos p < 2 ^ d → Zpos (digits2_pos p) = d.
Proof.
  intros [Hlo Hhi]. pose proof (digits2_pos_bounds p) as [Hlo' Hhi'].
  set (d' := Z.pos (digits2_pos p)) in *.
  assert (0 < d) as Hd.
  { destruct (Z.lt_ge_cases 0 d) as [|Hle]; [done|].
    exfalso. destruct (Z.eq_dec d 0) as [->|Hd0].
    - change (2 ^ 0) with 1 in Hhi. lia.
    - rewrite Z.pow_neg_r in Hhi by lia. lia. }
  destruct (Z.lt_trichotomy d d') as [Hlt|[->|Hgt]]; [|done|].
  - assert (2 ^ d ≤ 2 ^ (d' - 1)) by (apply Z.pow_le_mono_r; lia). lia.
  - assert (2 ^ d' ≤ 2 ^ (d - 1)) by (apply Z.pow_le_mono_r; lia). lia.
Qed.

Lemma shift_left_value (p d : positive) :
  Zpos (Pos.iter xO p d) = Zpos p * 2 ^ Zpos d.
Proof.
  induction d as [|d IH] using Pos.peano_ind.
  - cbn [Pos.iter]. lia.
  - rewrite Pos.iter_succ, Pos2Z.inj_xO, IH, Pos2Z.inj_succ.
    rewrite Z.pow_succ_r by lia. lia.
Qed.

Lemma binary_round_aux_exact (s : bool) (p : positive) (e : Z) :
  binary_round_aux 53 1024 s (Zpos p) e loc_Exact
  = match fexp 53 1024 (Zpos (digits2_pos p) + e) - e with
    | Zpos n => finish s (rne (Zpos p) (Zpos n)) (e + Zpos n)
    | _ => finish s (Zpos p) e
    end.
Proof.
  unfold binary_round_aux. unfold shr_fexp at 1.
  cbn [Zdigits2 shr_record_of_loc].
  destruct (fexp 53 1024 (Zpos (digits2_pos p) + e) - e) as [|n|n] eqn:Hn;
    cbn [shr shr_m loc_of_shr_record round_nearest_even]; try done.
  rewrite round_shr by lia. done.
Qed.

Lemma finish_fits (s : bool) (p : positive) (E : Z) :
  fexp 53 1024 (Zpos (digits2_pos p) + E) ≤ E →
  finish s (Zpos p) E
  = if E <=? 971 then S754_finite s p E else S754_infinity s.
Proof.
  intros HE. unfold finish, shr_fexp. cbn [Zdigits2 shr_record_of_loc].
  destruct (fexp 53 1024 (Zpos (digits2_pos p) + E) - E) eqn:Hn; try lia; done.
Qed.

Lemma finish_carry (s : bool) (E : Z) :
  -1075 ≤ E →
  finish s (2 ^ 53) E
  = if E + 1 <=? 971 then S754_finite s (Z.to_pos (2 ^ 52)) (E + 1)
    else S754_infinity s.
Proof.
  intros HE. unfold finish, shr_fexp, fexp, emin.
  change (Zdigits2 (2 ^ 53)) with 54.
  replace (Z.max (54 + E - 53) (3 - 1024 - 53) - E) with 1 by lia.
  done.
Qed.

Lemma finish_zero (s : bool) (E : Z) :
  -1074 ≤ E → finish s 0 E = S754_zero s.
Proof.
  intros HE. unfold finish, shr_fexp, fexp, emin. cbn [Zdigits2].
  destruct (Z.max (0 + E - 53) (3 - 1024 - 53) - E) eqn:Hn; try lia; done.
Qed.

Lemma rne_bounds (m n : Z) :
  m / 2 ^ n ≤ rne m n ≤ m / 2 ^ n + 1.
Proof.
  unfold rne. destruct (_ ?= _); [destruct (Z.even _)| |]; lia.
Qed.

Lemma rne_down (m n : Z) : 2 * (m mod 2 ^ n) < 2 ^ n → rne m n = m / 2 ^ n.
Proof.
  intros H. unfold rne. apply Z.compare_lt_iff in H. by rewrite H.
Qed.

Lemma pow2_pos (n : Z) : 0 ≤ n → 0 < 2 ^ n.
Proof. intros. apply Z.pow_pos_nonneg; lia. Qed.

Lemma pow2_lt_inv (a b : Z) : 0 ≤ b → 2 ^ a < 2 ^ b → a < b.
Proof.
  intros Hb H. destruct (Z.lt_ge_cases a b) as [|Hge]; [done|].
  assert (2 ^ b ≤ 2 ^ a) by (apply Z.pow_le_mono_r; lia). lia.
Qed.

Lemma floor_rounded (p : positive) (e : Z) :
  let E := fexp 53 1024 (Zpos (digits2_pos p) + e) in
  e ≤ E → E ≤ 0 →
  Number.floor (binary_round_aux 53 1024 false (Zpos p) e loc_Exact)
  = Some (Z.shiftl (rne (Zpos p) (E - e)) E).
Proof.
  intros E He HE. rewrite binary_round_aux_exact. fold E.
  pose proof (digits2_pos_bounds p) as [Hlo Hhi].
  set (d := Zpos (digits2_pos p)) in *.
  assert (-1074 ≤ E ∧ d + e - 53 ≤ E) as [Hmin Hd].
  { unfold E, fexp, emin. lia. }
  destruct (E - e) as [|n|n] eqn:Hn; [|clear He|lia].
  - assert (E = e) as HEe by lia. rewrite finish_fits by (fold d E; lia).
    destruct (Z.leb_spec e 971); [|lia]. cbn [Number.floor cond_Zopp].
    rewrite HEe. f_equal. f_equal. unfold rne.
    change (2 ^ 0) with 1. rewrite Z.div_1_r, Z.mod_1_r. done.
  - replace (e + Zpos n) with E by lia.
    pose proof (rne_bounds (Zpos p) (Zpos n)) as [Hr1 Hr2].
    set (M := rne (Zpos p) (Zpos n)) in *.
    assert (0 < 2 ^ Zpos n) as HT by (apply pow2_pos; lia).
    assert (0 ≤ Zpos p / 2 ^ Zpos n) as Hq0 by (apply Z.div_pos; lia).
    assert (Zpos p / 2 ^ Zpos n < 2 ^ 53) as Hq1.
    { apply Z.div_lt_upper_bound; [done|].
      rewrite <- Z.pow_add_r by lia.
      eapply Z.lt_le_trans; [exact Hhi|]. apply Z.pow_le_mono_r; lia. }
    destruct (Z.eq_dec M (2 ^ 53)) as [HM|HM].
    + rewrite HM, finish_carry by lia.
      destruct (Z.leb_spec (E + 1) 971); [|lia].
      cbn [Number.floor cond_Zopp]. f_equal.
      change (Z.pos (Z.to_pos (2 ^ 52))) with (2 ^ 52).
      change (2 ^ 53) with (Z.shiftl (2 ^ 52) 1).
      rewrite Z.shiftl_shiftl by lia. f_equal. lia.
    + destruct M as [|q|q] eqn:HMq; [|clear HMq|lia].
      * rewrite finish_zero by lia. cbn [Number.floor]. by rewrite Z.shiftl_0_l.
      * rewrite finish_fits.
        { destruct (Z.leb_spec E 971); [|lia]. done. }
        pose proof (digits2_pos_bounds q) as [Hq Hq'].
        assert (Zpos (digits2_pos q) - 1 < 53).
        { apply pow2_lt_inv; lia. }
        unfold fexp, emin. lia.
Qed.

(** An integer below [2^53] converts without rounding, to a mantissa of
    53 bits. *)
Lemma ofZ_exact (N : Z) :
  0 < N < 2 ^ 53 →
  ∃ (mN : positive) (eN : Z),
    Number.ofZ N = S754_finite false mN eN
    ∧ Zpos (digits2_pos mN) = 53 ∧ -52 ≤ eN ≤ 0
    ∧ Zpos mN = N * 2 ^ (- eN).
Proof.
  intros [HN0 HN]. destruct N as [|p|p]; try lia.
  pose proof (digits2_pos_bounds p) as [Hlo Hhi].
  unfold Number.ofZ, binary_normalize, binary_round, shl_align.
  set (d := Zpos (digits2_pos p)) in *.
  assert (d - 1 < 53) as Hd by (apply pow2_lt_inv; lia).
  assert (fexp 53 1024 (d + 0) = d - 53) as -> by (unfold fexp, emin; lia).
  destruct (d - 53 - 0) as [|k|k] eqn:Hk; [| lia |].
  - exists p, 0. rewrite binary_round_aux_exact. fold d.
    assert (fexp 53 1024 (d + 0) - 0 = 0) as -> by (unfold fexp, emin; lia).
    rewrite finish_fits by (fold d; unfold fexp, emin; lia).
    split_and!; [done|lia|lia|lia|]. change (2 ^ (- 0)) with 1. lia.
  - pose proof (shift_left_value p k) as Hv.
    set (mz := Pos.iter xO p k) in *.
    assert (Zpos (digits2_pos mz) = 53) as Hdz.
    { apply digits2_pos_unique. rewrite Hv.
      assert (2 ^ (53 - 1) = 2 ^ (d - 1) * 2 ^ Zpos k) as ->.
      { rewrite <- Z.pow_add_r by lia. f_equal. lia. }
      assert (2 ^ 53 = 2 ^ d * 2 ^ Zpos k) as ->.
      { rewrite <- Z.pow_add_r by lia. f_equal. lia. }
      assert (0 < 2 ^ Zpos k) by (apply pow2_pos; lia). nia. }
    exists mz, (d - 53). rewrite binary_round_aux_exact, Hdz.
    assert (fexp 53 1024 (53 + (d - 53)) - (d - 53) = 0) as ->
      by (unfold fexp, emin; lia).
    rewrite finish_fits by (rewrite Hdz; unfold fexp, emin; lia).
    destruct (Z.leb_spec (d - 53) 971); [|lia].
    split_and!; [done|done|lia|lia|].
    rewrite Hv. f_equal. f_equal. lia.
Qed.

(** The heart of the draw: a binary64 [r] below 1 times an integer [N],
    rounded and floored, is [floor (r * N)] or one more, and below [N]. *)
Lemma product_floor_range (mr mN : positive) (er eN N : Z) :
  bounded 53 1024 mr er = true → Zpos mr < 2 ^ (- er) →
  Zpos (digits2_pos mN) = 53 → -52 ≤ eN ≤ 0 → 0 < N →
  Zpos mN = N * 2 ^ (- eN) →
  ∃ i : Z,
    Number.floor
      (binary_round_aux 53 1024 false (Zpos (mr * mN)) (er + eN) loc_Exact)
    = Some i
    ∧ (Zpos mr * N) / 2 ^ (- er) ≤ i ≤ (Zpos mr * N) / 2 ^ (- er) + 1
    ∧ 0 ≤ i < N.
Proof.
  intros Hb Hr HdN HeN HN HmN.
  apply andb_prop in Hb as [Hcan _].
  unfold canonical_mantissa in Hcan. apply Z.eqb_eq in Hcan.
  pose proof (digits2_pos_bounds mr) as [Hrlo Hrhi].
  pose proof (digits2_pos_bounds mN) as [HNlo HNhi].
  pose proof (digits2_pos_bounds (mr * mN)) as [Hmlo Hmhi].
  rewrite HdN in HNlo, HNhi. change (53 - 1) with 52 in HNlo.
  set (dr := Zpos (digits2_pos mr)) in *.
  set (d := Zpos (digits2_pos (mr * mN))) in *.
  rewrite Pos2Z.inj_mul in Hmlo, Hmhi.
  set (R := Zpos mr) in *. set (Nm := Zpos mN) in *.
  assert (1 ≤ dr) as Hdr1 by (unfold dr; lia).
  assert (er < 0) as Her.
  { destruct (Z.lt_ge_cases er 0) as [|Hge]; [done|]. exfalso.
    destruct (Z.eq_dec er 0) as [->|]; [change (2 ^ (- 0)) with 1 in Hr; lia|].
    rewrite Z.pow_neg_r in Hr by lia. lia. }
  assert (-1074 ≤ er ∧ dr ≤ 53) as [Hermin Hdr53].
  { revert Hcan. unfold fexp, emin. lia. }
  assert (dr ≤ - er) as Hdrer.
  { assert (dr - 1 < - er); [|lia]. apply pow2_lt_inv; lia. }
  assert (R < 2 ^ 53) as HR53.
  { eapply Z.lt_le_trans; [exact Hrhi|]. apply Z.pow_le_mono_r; lia. }
  assert (dr + 52 ≤ d ≤ dr + 53) as [Hd1 Hd2].
  { split.
    - assert (dr + 51 < d); [|lia]. apply pow2_lt_inv; [unfold d; lia|].
      eapply Z.le_lt_trans; [|exact Hmhi].
      replace (dr + 51) with ((dr - 1) + 52) by lia.
      rewrite Z.pow_add_r by lia. nia.
    - assert (d - 1 < dr + 53); [|lia]. apply pow2_lt_inv; [lia|].
      eapply Z.le_lt_trans; [exact Hmlo|].
      rewrite Z.pow_add_r by lia. nia. }
  set (e := er + eN) in *.
  set (E := fexp 53 1024 (d + e)).
  assert (E = Z.max (d + e - 53) (-1074)) as HEdef by done.
  assert (e ≤ E ∧ E ≤ 0) as [HeE HE0] by lia.
  rewrite floor_rounded by (fold d E; lia). fold d E.
  eexists. split; [done|]. rewrite Pos2Z.inj_mul. fold R Nm.
  set (n := E - e) in *.
  set (M := rne (R * Nm) n).
  pose proof (rne_bounds (R * Nm) n) as [HM1 HM2]. fold M in HM1, HM2.
  set (T := 2 ^ n) in *. set (K := 2 ^ (- E)).
  set (P := 2 ^ (- er)) in *. set (S := 2 ^ (- eN)) in *.
  assert (0 < T) as HT by (apply pow2_pos; lia).
  assert (0 < K) as HK by (apply pow2_pos; lia).
  assert (0 < P) as HP by (apply pow2_pos; lia).
  assert (0 < S) as HS by (apply pow2_pos; lia).
  assert (T * K = P * S) as HTK.
  { unfold T, K, P, S. rewrite <- !Z.pow_add_r by lia. f_equal. lia. }
  rewrite Z.shiftl_div_pow2 by lia. fold K.
  set (m1 := R * Nm / T) in *.
  assert (R * N / P = m1 / K) as HF.
  { unfold m1. rewrite Z.div_div by lia. rewrite HTK, HmN.
    replace (R * (N * S)) with (R * N * S) by lia.
    by rewrite Z.div_mul_cancel_r by lia. }
  assert (0 ≤ m1) as Hm1 by (apply Z.div_pos; lia).
  rewrite HF. split.
  - split; [by apply Z.div_le_mono; lia|].
    transitivity ((m1 + 1 * K) / K); [apply Z.div_le_mono; lia|].
    rewrite Z.div_add by lia. lia.
  - split; [apply Z.div_pos; lia|].
    apply Z.div_lt_upper_bound; [done|].
    (* the rounded mantissa stays below [N * K] *)
    assert (T < 2 * Nm * (P - R)) as Hgap.
    { destruct (Z.max_spec (d + e - 53) (-1074)) as [[_ HEq]|[_ HEq]].
      - assert (n ≤ 52) as Hn52 by lia.
        assert (T ≤ 2 ^ 52) by (apply Z.pow_le_mono_r; lia). nia.
      - assert (T * 2 ^ 52 = 2 ^ (d - 1)) as HT52.
        { unfold T. rewrite <- Z.pow_add_r by lia. f_equal. lia. }
        assert (T * 2 ^ 52 < 2 ^ 52 * (2 * Nm * (P - R))); [|nia].
        rewrite HT52. eapply Z.le_lt_trans; [exact Hmlo|].
        change (2 ^ 53) with (2 * 2 ^ 52) in HR53. nia. }
    assert (0 ≤ (R * Nm) mod T < T) as Hrem by (apply Z.mod_pos_bound; lia).
    pose proof (Z.div_mod (R * Nm) T ltac:(lia)) as Hdm. fold m1 in Hdm.
    assert (N * K * T = Nm * P) as HJ.
    { rewrite HmN. nia. }
    destruct (Z.le_gt_cases (m1 + 2) (N * K)) as [Hfar|Hnear]; [lia|].
    assert (M = m1) as ->; [|nia].
    apply rne_down. fold T. nia.
Qed.

Lemma Qpower2_nonneg (e : Z) : 0 ≤ e → (2 ^ e == inject_Z (2 ^ e))%Q.
Proof. intros He. by rewrite Zpower_Qpower. Qed.

Lemma Qpower2_neg (e : Z) : e ≤ 0 → (2 ^ e == / inject_Z (2 ^ (- e)))%Q.
Proof.
  intros He. rewrite <- (Z.opp_involutive e) at 1.
  rewrite Qpower_opp, Qpower2_nonneg by lia. done.
Qed.

Lemma inject_Z_pow2_pos (n : Z) : 0 ≤ n → (0 < inject_Z (2 ^ n))%Q.
Proof.
  intros Hn. change 0%Q with (inject_Z 0). rewrite <- Zlt_Qlt.
  by apply pow2_pos.
Qed.

Lemma Zlt_Qlt_iff (x y : Z) : x < y ↔ (inject_Z x < inject_Z y)%Q.
Proof. by rewrite Zlt_Qlt. Qed.

(** A positive finite number is below 1 exactly when its mantissa is below
    [2 ^ (- e)]. *)
Lemma valueOf_below_one (m : positive) (e : Z) :
  (Number.valueOf (S754_finite false m e) < 1)%Q ↔ Zpos m < 2 ^ (- e).
Proof.
  cbn [Number.valueOf cond_Zopp].
  destruct (Z.le_gt_cases e 0) as [He|He].
  - pose proof (inject_Z_pow2_pos (- e) ltac:(lia)) as Hpos.
    rewrite Qpower2_neg by done.
    change (inject_Z (Zpos m) * / inject_Z (2 ^ (- e)))%Q
      with (inject_Z (Zpos m) / inject_Z (2 ^ (- e)))%Q.
    split.
    + intros H. apply Zlt_Qlt_iff. apply (Qmult_lt_r _ _ _ Hpos) in H.
      rewrite Qmult_1_l in H. eapply Qle_lt_trans; [|exact H].
      apply Qle_lteq. right. field.
      intros Hz. rewrite Hz in Hpos. by apply Qlt_irrefl in Hpos.
    + intros H. apply Zlt_Qlt_iff in H. apply Qlt_shift_div_r; [done|].
      by rewrite Qmult_1_l.
  - rewrite Qpower2_nonneg by lia. rewrite (Z.pow_neg_r 2 (- e)) by lia.
    rewrite <- inject_Z_mult. change 1%Q with (inject_Z 1).
    pose proof (pow2_pos e ltac:(lia)). rewrite <- Zlt_Qlt_iff.
    revert H. generalize (2 ^ e). intros P HP. split; intros; nia.
Qed.

Lemma valueOf_negative (m : positive) (e : Z) :
  (Number.valueOf (S754_finite true m e) < 0)%Q.
Proof.
  cbn [Number.valueOf cond_Zopp].
  assert (0 < 2 ^ e)%Q as Hp by (by apply Qpower_0_lt).
  assert (inject_Z (Zneg m) * 2 ^ e == - (inject_Z (Zpos m) * 2 ^ e))%Q as ->.
  { change (Zneg m) with (- Zpos m). rewrite inject_Z_opp. ring. }
  rewrite <- (Qopp_opp 0). apply Qopp_lt_compat. change (- 0)%Q with 0%Q.
  apply Qmult_lt_0_compat; [|done]. change 0%Q with (inject_Z 0).
  rewrite <- Zlt_Qlt. lia.
Qed.

Lemma floor_exact_product (m : positive) (e N : Z) :
  e ≤ 0 →
  Qfloor (Number.valueOf (S754_finite false m e) * inject_Z N)
  = (Zpos m * N) / 2 ^ (- e).
Proof.
  intros He. cbn [Number.valueOf cond_Zopp].
  pose proof (inject_Z_pow2_pos (- e) ltac:(lia)) as Hpos.
  rewrite Zdiv_Qdiv. apply Qfloor_comp.
  rewrite Qpower2_neg, inject_Z_mult by done. field.
  intros Hz. rewrite Hz in Hpos. by apply Qlt_irrefl in Hpos.
Qed.

(** A negative integer converts to a negative number, finite or infinite,
    never to zero or NaN. *)
Lemma ofZ_negative (w : Z) :
  w < 0 →
  (∃ m e, Number.ofZ w = S754_finite true m e)
  ∨ Number.ofZ w = S754_infinity true.
Proof.
  intros Hw. destruct w as [|p|p]; try lia.
  pose proof (digits2_pos_bounds p) as [Hlo Hhi].
  unfold Number.ofZ, binary_normalize, binary_round, shl_align.
  set (d := Zpos (digits2_pos p)) in *.
  assert (1 ≤ d) as Hd1 by (unfold d; lia).
  assert (fexp 53 1024 (d + 0) = d - 53) as -> by (unfold fexp, emin; lia).
  destruct (d - 53 - 0) as [|k|k] eqn:Hk.
  - rewrite binary_round_aux_exact. fold d.
    assert (fexp 53 1024 (d + 0) - 0 = 0) as -> by (unfold fexp, emin; lia).
    rewrite finish_fits by (fold d; unfold fexp, emin; lia).
    left. by eexists _, _.
  - rewrite binary_round_aux_exact. fold d.
    assert (fexp 53 1024 (d + 0) - 0 = Zpos k) as ->
      by (unfold fexp, emin; lia).
    pose proof (rne_bounds (Zpos p) (Zpos k)) as [Hr1 Hr2].
    set (M := rne (Zpos p) (Zpos k)) in *.
    assert (0 < 2 ^ Zpos k) as HT by (apply pow2_pos; lia).
    assert (2 ^ 52 ≤ Zpos p / 2 ^ Zpos k) as Hq0.
    { apply Z.div_le_lower_bound; [done|].
      rewrite Z.mul_comm, <- Z.pow_add_r by lia.
      replace (52 + Zpos k) with (d - 1) by lia. done. }
    assert (Zpos p / 2 ^ Zpos k < 2 ^ 53) as Hq1.
    { apply Z.div_lt_upper_bound; [done|].
      rewrite <- Z.pow_add_r by lia.
      replace (Zpos k + 53) with d by lia. done. }
    destruct (Z.eq_dec M (2 ^ 53)) as [HM|HM].
    + rewrite HM, finish_carry by lia.
      destruct (_ <=? _); [left; by eexists _, _|by right].
    + destruct M as [|q|q] eqn:HMq; [lia|clear HMq|lia].
      rewrite finish_fits.
      { destruct (_ <=? _); [left; by eexists _, _|by right]. }
      pose proof (digits2_pos_bounds q) as [Hq Hq'].
      assert (Zpos (digits2_pos q) - 1 < 53) by (apply pow2_lt_inv; lia).
      unfold fexp, emin. lia.
  - pose proof (shift_left_value p k) as Hv.
    set (mz := Pos.iter xO p k) in *.
    assert (Zpos (digits2_pos mz) = 53) as Hdz.
    { apply digits2_pos_unique. rewrite Hv.
      assert (2 ^ (53 - 1) = 2 ^ (d - 1) * 2 ^ Zpos k) as ->.
      { rewrite <- Z.pow_add_r by lia. f_equal. lia. }
      assert (2 ^ 53 = 2 ^ d * 2 ^ Zpos k) as ->.
      { rewrite <- Z.pow_add_r by lia. f_equal. lia. }
      assert (0 < 2 ^ Zpos k) by (apply pow2_pos; lia). nia. }
    rewrite binary_round_aux_exact, Hdz.
    assert (fexp 53 1024 (53 + (d - 53)) - (d - 53) = 0) as ->
      by (unfold fexp, emin; lia).
    rewrite finish_fits by (rewrite Hdz; unfold fexp, emin; lia).
    left. destruct (_ <=? _) eqn:Hle; [by eexists _, _|].
    apply Z.leb_gt in Hle. lia.
Qed.

(** The index of the draw lies within the array, and is
    [floor (random * N)] or one more. *)
Lemma randomIndex_spec {A} (arr : list A) (random : spec_float) :
  Number.isRandom random → arr ≠ [] → Z.of_nat (length arr) < 2 ^ 53 →
  ∃ i : nat,
    randomIndex random arr = Some (Z.of_nat i) ∧ (i < length arr)%nat
    ∧ Qfloor (Number.valueOf random * inject_Z (Z.of_nat (length arr)))
      ≤ Z.of_nat i
    ∧ Z.of_nat i
      ≤ Qfloor (Number.valueOf random * inject_Z (Z.of_nat (length arr))) + 1.
Proof.
  intros (Hvalid & Hfin & H0 & H1) Hne Hlen.
  set (N := Z.of_nat (length arr)) in *.
  assert (0 < N) as HN.
  { destruct arr; [done|]. unfold N. cbn [length]. lia. }
  destruct (ofZ_exact N) as (mN & eN & HofZ & HdN & HeN & HmN); [lia|].
  unfold randomIndex, arrayLength. fold N. rewrite HofZ.
  destruct random as [s|s| |s m e]; try done.
  - exists 0%nat. cbn [Number.valueOf].
    assert (Qfloor (0 * inject_Z N) = 0) as ->.
    { rewrite (Qfloor_comp _ 0); [done|ring]. }
    split_and!; [done|lia..].
  - destruct s.
    { pose proof (valueOf_negative m e) as Hneg.
      by apply Qlt_not_le in Hneg. }
    cbn [valid_binary] in Hvalid. apply valueOf_below_one in H1.
    assert (e ≤ 0) as He.
    { destruct (Z.le_gt_cases e 0) as [|Hgt]; [done|].
      rewrite Z.pow_neg_r in H1 by lia. lia. }
    destruct (product_floor_range m mN e eN N Hvalid H1 HdN HeN HN HmN)
      as (i & Hfloor & [Hlo Hhi] & [Hi0 HiN]).
    exists (Z.to_nat i). rewrite Z2Nat.id by done.
    rewrite floor_exact_product by done.
    split_and!; [exact Hfloor|lia|done|done].
Qed.

Lemma displayThrows_spec (a : Anime) :
  DataCn.displayThrows a = false ↔ displayable a.
Proof.
  unfold DataCn.displayThrows, displayable, scoreTruthy.
  rewrite orb_false_iff, andb_false_iff, negb_false_iff. split.
  - intros [Hscore Hseason]. split; [by destruct (season a)|].
    intros Htruthy. destruct Hscore as [Hfalse|Hnum]; [congruence|].
    destruct (score a) as [| | |q| |]; try done. by exists q.
  - intros [Hseason Hscore]. split; [|by destruct (season a)].
    destruct (truthy (score a)) eqn:Htruthy; [right|by left].
    by destruct (Hscore eq_refl) as [q ->].
Qed.

Lemma jsIndex_nat {A} (arr : list A) (i : nat) :
  jsIndex arr (Z.of_nat i) = arr !! i.
Proof.
  unfold jsIndex. rewrite bool_decide_eq_false_2 by lia.
  by rewrite Nat2Z.id.
Qed.

(** ** Claims on the filter and the sampler *)

Lemma List_filter_sublist {A} (f : A → bool) (l : list A) :
  List.filter f l `sublist_of` l.
Proof.
  induction l as [|x l IH]; cbn [List.filter]; [done|].
  destruct (f x); by constructor.
Qed.

(** The two scenarios of the contract: under OR with "Action" selected
    only A is kept (B is unrated and not Japanese); under AND with
    "Action" and "Horror" nothing is. *)
Example scenario_or :
  App.filterAnime Sample.actionOnly [Sample.animeA; Sample.animeB]
  = [Sample.animeA].
Proof. reflexivity. Qed.

Example scenario_and :
  App.filterAnime (mkFilterState false true true {["Action"; "Horror"]} AND)
    [Sample.animeA; Sample.animeB]
  = [].
Proof. reflexivity. Qed.

(** An absent [is_japanese] passes under [japaneseOnly]; an explicit
    [false] does not. *)
Example unknown_is_innocent :
  App.keeps Sample.defaults
    (mkAnime 5 "U" (JNum 8) (JBool false) JUndefined None None None) = true
  ∧ App.keeps Sample.defaults
      (mkAnime 6 "F" (JNum 8) (JBool false) (JBool false) None None None)
    = false.
Proof. split; reflexivity. Qed.

Lemma passesStated_zeroScore : passesStated Sample.defaults Sample.zeroScore.
Proof.
  unfold passesStated, passesWith. split_and!.
  - by right.
  - by right.
  - right. by intros [=].
  - by intros [].
Qed.

(** C1, as stated, fails: a record whose score is the number 0 has a rating
    present and meets the four stated conditions, yet [filterAnime] with
    [hideNotRated] on drops it. *)
Lemma C1_counterexample :
  App.filterAnime Sample.defaults [Sample.zeroScore]
  ≠ filter (passesStated Sample.defaults) [Sample.zeroScore].
Proof.
  rewrite filter_cons_True by apply passesStated_zeroScore.
  by intros [=].
Qed.

(** C1 (amended): [filterAnime] returns exactly the order-preserving
    subsequence of its input whose records satisfy the four conditions,
    condition 2 reading "hideNotRated is off or the score is truthy": a
    score that is absent, null or the number 0 does not count as a rating.
    An absent or unknown [is_japanese] does not exclude a record; only an
    explicit [false] does. *)
Theorem filterAnime_correct (st : FilterState) (animeList : list Anime) :
  App.filterAnime st animeList = filter (passesTruthy st) animeList
  ∧ App.filterAnime st animeList `sublist_of` animeList.
Proof.
  split.
  - apply List_filter_stdpp, keeps_spec.
  - apply List_filter_sublist.
Qed.

(** C10: in the season browser a record whose score is present but equal
    to 0 is treated as unrated: with [hideNotRated] on, [filterAnime]
    never returns it. *)
Theorem zero_score_hidden (st : FilterState) (l : list Anime) (a : Anime)
    (q : Q) :
  hideNotRated st = true → score a = JNum q → (q == 0)%Q →
  a ∉ App.filterAnime st l.
Proof.
  intros Hhide Hscore Hq Hin.
  apply list_elem_of_In, filter_In in Hin as [_ Hkeep].
  unfold App.keeps in Hkeep. rewrite Hhide, Hscore in Hkeep. cbn in Hkeep.
  apply Qeq_bool_iff in Hq. rewrite Hq in Hkeep. cbn in Hkeep.
  by destruct (negb (showHentai st) && truthy (is_hentai a)).
Qed.

Lemma zero_score_hidden_witness :
  hideNotRated Sample.defaults = true
  ∧ score Sample.zeroScore = JNum 0
  ∧ (0 == 0)%Q
  ∧ Sample.zeroScore
    ∉ App.filterAnime Sample.defaults [Sample.animeA; Sample.zeroScore].
Proof.
  split_and!; [reflexivity..|].
  apply (zero_score_hidden Sample.defaults _ Sample.zeroScore 0);
    reflexivity.
Defined.

(** C2, as stated, fails: on a record whose score is the number 0 the four
    checks of the data_cn.js sampler pass while the callback of
    [filterAnime] rejects, so the sampler draws and displays a record
    (here as the loader hands it on) that the filter leaves out. *)
Lemma C2_counterexample :
  DataCn.contentChecks Sample.defaults Sample.loadedZ
  ≠ App.keeps Sample.defaults Sample.loadedZ
  ∧ DataCn.getRandomAnime Sample.defaults 0 [Sample.loadedZ] Sample.half
    = DataCn.Displays Sample.loadedZ
  ∧ App.filterAnime Sample.defaults [Sample.loadedZ] = [].
Proof. split_and!; by vm_compute. Qed.

(** C2 (amended): the predicate of the data_cn.js sampler is its four
    content and genre checks followed by the rating-threshold checks; the
    four checks accept exactly the records meeting the four conditions
    with condition 2 read as "the score is a number"; they coincide with
    the predicate of [filterAnime], which reads condition 2 as "the score
    is truthy", when [hideNotRated] is off or the score is a number
    exactly when it is truthy (absent, null, or a non-zero number). *)
Theorem sampler_checks_vs_filter (st : FilterState) (ratingFilter : Q)
    (a : Anime) :
  DataCn.qualifies st ratingFilter a
  = DataCn.contentChecks st a && DataCn.ratingChecks ratingFilter a
  ∧ (DataCn.contentChecks st a = true ↔ passesStated st a)
  ∧ (hideNotRated st = false ∨ (ratingPresent a ↔ scoreTruthy a) →
     DataCn.contentChecks st a = App.keeps st a).
Proof.
  split_and!.
  - apply qualifies_split.
  - apply contentChecks_spec.
  - intros Hagree. apply eq_true_iff_eq.
    rewrite contentChecks_spec, keeps_spec.
    unfold passesStated, passesTruthy, passesWith. intuition congruence.
Qed.

Lemma sampler_checks_vs_filter_witness :
  (ratingPresent Sample.animeA ↔ scoreTruthy Sample.animeA)
  ∧ DataCn.contentChecks Sample.actionOnly Sample.animeA
    = App.keeps Sample.actionOnly Sample.animeA.
Proof.
  assert (ratingPresent Sample.animeA ↔ scoreTruthy Sample.animeA) as Hrated.
  { unfold ratingPresent, scoreTruthy. cbn. tauto. }
  split; [done|].
  apply (sampler_checks_vs_filter Sample.actionOnly 0 Sample.animeA).
  by right.
Defined.

(** The random.js sampler consults the genre buttons only: with none
    active every record qualifies, an adult, unrated, non-Japanese one
    included. *)
Lemma random_js_genres_only (a : Anime) : Random.matches ∅ a = true.
Proof. reflexivity. Qed.

Example random_js_picks_hidden_record :
  Random.getRandomAnime ∅ [Sample.adultUnrated] Sample.half
  = Random.PickedAnime Sample.adultUnrated
  ∧ DataCn.getRandomAnime Sample.defaults 0 [Sample.adultUnrated]
      Sample.half
    = DataCn.NoAnimeFound.
Proof. split; by vm_compute. Qed.

Lemma scoreValue_num (a : Anime) (q : Q) :
  score a = JNum q → DataCn.hasScore a = true ∧ DataCn.scoreValue a = q.
Proof.
  intros Hq. unfold DataCn.scoreValue, DataCn.hasScore. by rewrite Hq.
Qed.

(** The rating checks for an arbitrary threshold. *)
Lemma ratingChecks_general (ratingFilter : Q) (a : Anime) :
  DataCn.ratingChecks ratingFilter a = true
  ↔ (¬ ratingPresent a ∧ (ratingFilter <= 0)%Q)
    ∨ (∃ q, score a = JNum q ∧ (ratingFilter <= q)%Q).
Proof.
  unfold DataCn.ratingChecks.
  destruct (DataCn.hasScore a) eqn:Hhas; cbn [negb andb].
  - pose proof Hhas as Hp. apply hasScore_spec in Hp.
    unfold ratingPresent in Hp.
    destruct (score a) as [| | |q| |] eqn:Hs; try done.
    destruct (scoreValue_num a q Hs) as [_ ->].
    destruct (Qltb q ratingFilter) eqn:Hlt.
    + apply Qltb_spec in Hlt. split; [done|].
      intros [[Hnp _]|(q' & [= <-] & Hle)].
      * destruct Hnp. unfold ratingPresent. by rewrite Hs.
      * by apply Qlt_not_le in Hlt.
    + split; [|done]. intros _. right. exists q. split; [done|].
      apply Qnot_lt_le. intros Hlt'. apply Qltb_spec in Hlt'. congruence.
  - assert (¬ ratingPresent a) as Hnp.
    { rewrite <- hasScore_spec. congruence. }
    destruct (Qltb 0 ratingFilter) eqn:Hlt.
    + apply Qltb_spec in Hlt. split; [done|].
      intros [[_ Hle]|(q & Hs & _)].
      * by apply Qlt_not_le in Hlt.
      * destruct Hnp. unfold ratingPresent. by rewrite Hs.
    + split; [|done]. intros _. left. split; [done|].
      apply Qnot_lt_le. intros Hlt'. apply Qltb_spec in Hlt'. congruence.
Qed.

Lemma qualifies_spec (st : FilterState) (ratingFilter : Q) (a : Anime) :
  DataCn.qualifies st ratingFilter a = true
  ↔ passesStated st a ∧ ratingThreshold ratingFilter a.
Proof.
  rewrite qualifies_split, andb_true_iff, contentChecks_spec.
  by rewrite ratingChecks_general.
Qed.

(** C3, as stated, fails for a threshold below zero: the code asks
    [ratingFilter > 0] before it rejects an unrated record, so with the
    threshold at -1 the sampler accepts an unrated record although the
    threshold is not zero. *)
Lemma C3_counterexample :
  DataCn.qualifies Sample.permissive (-1 # 1) Sample.animeB = true
  ∧ ¬ ratingThresholdStated (-1 # 1) Sample.animeB.
Proof.
  split; [reflexivity|].
  intros [[_ Hzero]|(q & Hscore & _)]; discriminate.
Qed.

(** C3 (amended): the sampler accepts a record exactly when the record
    passes the four content and genre checks and its rating is absent with
    the threshold at most 0, or is a number that is at least the
    threshold.  For a threshold on the rating scale (not negative) this is
    the stated condition: absent and the threshold is 0, or present and at
    least the threshold; so a positive threshold rejects every unrated
    record whatever the other settings, [hideNotRated] off included. *)
Theorem rating_threshold_spec (st : FilterState) (ratingFilter : Q)
    (a : Anime) :
  (DataCn.qualifies st ratingFilter a = true
   ↔ passesStated st a ∧ ratingThreshold ratingFilter a)
  ∧ ((0 <= ratingFilter)%Q →
     (ratingThreshold ratingFilter a ↔ ratingThresholdStated ratingFilter a))
  ∧ (¬ ratingPresent a → (0 < ratingFilter)%Q →
     DataCn.qualifies st ratingFilter a = false).
Proof.
  split_and!.
  - apply qualifies_spec.
  - intros Hnonneg. unfold ratingThreshold, ratingThresholdStated. split.
    + intros [[Hnp Hle]|Hq]; [left|by right].
      split; [done|]. by apply Qle_antisym.
    + intros [[Hnp Heq]|Hq]; [left|by right].
      split; [done|]. rewrite Heq. apply Qle_refl.
  - intros Hnp Hpos. apply not_true_iff_false. rewrite qualifies_spec.
    intros [_ [[_ Hle]|(q & Hs & _)]].
    + by apply Qlt_not_le in Hpos.
    + destruct Hnp. unfold ratingPresent. by rewrite Hs.
Qed.

Lemma rating_threshold_spec_witness :
  (0 <= 7)%Q
  ∧ ratingThresholdStated 7 Sample.animeA
  ∧ DataCn.qualifies (mkFilterState false false true ∅ OR) 7 Sample.animeB
    = false.
Proof.
  assert (0 <= 7)%Q as H07 by done.
  split; [done|].
  destruct (rating_threshold_spec (mkFilterState false false true ∅ OR) 7
              Sample.animeA) as (_ & HA & _).
  destruct (rating_threshold_spec (mkFilterState false false true ∅ OR) 7
              Sample.animeB) as (_ & _ & HB).
  split.
  - apply (HA H07). right. exists (15 # 2). by split.
  - apply HB; [|done]. unfold ratingPresent. cbn. tauto.
Defined.

(** C9: when no record qualifies, each sampler answers with its no-result
    outcome for whatever [Math.random] returns ([null] in random.js, the
    "No anime found" card in data_cn.js) and [filterAnime] returns the
    empty list; all three are ordinary results of total functions. *)
Theorem empty_result_handling (st : FilterState) (ratingFilter : Q)
    (active : gset string) (l : list Anime) (random : spec_float) :
  ((∀ a, a ∈ l → DataCn.qualifies st ratingFilter a = false) →
   DataCn.getRandomAnime st ratingFilter l random = DataCn.NoAnimeFound)
  ∧ ((∀ a, a ∈ l → Random.matches active a = false) →
     Random.getRandomAnime active l random = Random.PickedNull)
  ∧ ((∀ a, a ∈ l → ¬ passesTruthy st a) → App.filterAnime st l = []).
Proof.
  split_and!.
  - intros Hnone. apply List_filter_nil_iff in Hnone.
    unfold DataCn.getRandomAnime. by rewrite Hnone.
  - intros Hnone. apply List_filter_nil_iff in Hnone.
    unfold Random.getRandomAnime. by rewrite Hnone.
  - intros Hnone. apply List_filter_nil_iff. intros a Ha.
    apply not_true_iff_false. rewrite keeps_spec. by apply Hnone.
Qed.

Lemma empty_result_handling_witness :
  DataCn.getRandomAnime Sample.defaults 0 [Sample.animeB] Sample.half
  = DataCn.NoAnimeFound
  ∧ Random.getRandomAnime {["Action"]} [Sample.animeB] Sample.half
    = Random.PickedNull
  ∧ App.filterAnime Sample.defaults [Sample.animeB] = [].
Proof.
  destruct (empty_result_handling Sample.defaults 0 {["Action"]}
              [Sample.animeB] Sample.half) as (H1 & H2 & H3).
  split_and!.
  - apply H1. intros a ->%list_elem_of_singleton. reflexivity.
  - apply H2. intros a ->%list_elem_of_singleton. reflexivity.
  - apply H3. intros a ->%list_elem_of_singleton.
    unfold passesTruthy, passesWith, scoreTruthy. cbn.
    intros (_ & [?|?] & _); discriminate.
Defined.

(** C4, as stated, fails: the samplers floor the product as binary64
    arithmetic rounds it, not the exact product.  For [Math.random()]
    returning 0.3333333333333333 and three qualifying records the exact
    product is just below 1 and its floor is 0, but the rounded product
    is 1: both samplers take the record at index 1. *)
Lemma C4_counterexample :
  Number.isRandom Sample.third
  ∧ Qfloor (Number.valueOf Sample.third * 3) = 0
  ∧ randomIndex Sample.third
      [Sample.loadedA; Sample.loadedB; Sample.loadedZ] = Some 1
  ∧ Random.getRandomAnime ∅
      [Sample.loadedA; Sample.loadedB; Sample.loadedZ] Sample.third
    = Random.PickedAnime Sample.loadedB
  ∧ DataCn.getRandomAnime Sample.permissive 0
      [Sample.loadedA; Sample.loadedB; Sample.loadedZ] Sample.third
    = DataCn.Displays Sample.loadedB.
Proof. split_and!; by vm_compute. Qed.

(** C4 (amended): with [N >= 1] qualifying records and [Math.random()]
    returning [random], a binary64 number in [0,1), each sampler takes the
    qualifying record at index [floor (random * N)], the product being
    the binary64 product, rounded to nearest, before the floor.  That
    index is always a position of the list, and it is the floor of the
    exact product or one more.  random.js returns the record; data_cn.js
    displays it when it carries a season and its score, if truthy, is a
    number, and shows the error card otherwise. *)
Theorem sampler_pick_index (st : FilterState) (ratingFilter : Q)
    (active : gset string) (l : list Anime) (random : spec_float) :
  Number.isRandom random →
  (∀ filtered, filtered = List.filter (DataCn.qualifies st ratingFilter) l →
     filtered ≠ [] → Z.of_nat (length filtered) < 2 ^ 53 →
     ∃ (i : nat) (x : Anime),
       randomIndex random filtered = Some (Z.of_nat i)
       ∧ filtered !! i = Some x
       ∧ Qfloor (Number.valueOf random
                 * inject_Z (Z.of_nat (length filtered))) ≤ Z.of_nat i
       ∧ Z.of_nat i
         ≤ Qfloor (Number.valueOf random
                   * inject_Z (Z.of_nat (length filtered))) + 1
       ∧ (displayable x →
          DataCn.getRandomAnime st ratingFilter l random = DataCn.Displays x)
       ∧ (¬ displayable x →
          DataCn.getRandomAnime st ratingFilter l random
          = DataCn.ErrorOccurred))
  ∧ (∀ filtered, filtered = List.filter (Random.matches active) l →
       filtered ≠ [] → Z.of_nat (length filtered) < 2 ^ 53 →
       ∃ (i : nat) (x : Anime),
         randomIndex random filtered = Some (Z.of_nat i)
         ∧ filtered !! i = Some x
         ∧ Qfloor (Number.valueOf random
                   * inject_Z (Z.of_nat (length filtered))) ≤ Z.of_nat i
         ∧ Z.of_nat i
           ≤ Qfloor (Number.valueOf random
                     * inject_Z (Z.of_nat (length filtered))) + 1
         ∧ Random.getRandomAnime active l random = Random.PickedAnime x)
  ∧ (∀ filtered : list Anime,
       randomIndex random filtered
       = Number.floor
           (SFmul 53 1024 random
              (binary_normalize 53 1024 (Z.of_nat (length filtered)) 0
                 false))).
Proof.
  intros Hrandom. split_and!; [| |done].
  - intros filtered -> Hne Hlen.
    destruct (randomIndex_spec _ random Hrandom Hne Hlen)
      as (i & Hi & Hlt & Hlo & Hhi).
    destruct (lookup_lt_is_Some_2 _ i Hlt) as [x Hx].
    exists i, x.
    assert (DataCn.getRandomAnime st ratingFilter l random
            = if DataCn.displayThrows x then DataCn.ErrorOccurred
              else DataCn.Displays x) as ->.
    { unfold DataCn.getRandomAnime. rewrite Hi. cbn [mbind option_bind].
      rewrite jsIndex_nat, Hx.
      rewrite bool_decide_eq_false_2; [done|].
      by rewrite length_zero_iff_nil. }
    pose proof (displayThrows_spec x) as Hshow.
    split_and!; [done..| |]; destruct (DataCn.displayThrows x);
      intros Hx'; [|done|done|]; exfalso.
    + apply Hshow in Hx'. discriminate.
    + by apply Hx', Hshow.
  - intros filtered -> Hne Hlen.
    destruct (randomIndex_spec _ random Hrandom Hne Hlen)
      as (i & Hi & Hlt & Hlo & Hhi).
    destruct (lookup_lt_is_Some_2 _ i Hlt) as [x Hx].
    exists i, x. split_and!; [done..|].
    unfold Random.getRandomAnime. rewrite Hi. cbn [mbind option_bind].
    rewrite jsIndex_nat, Hx.
    rewrite bool_decide_eq_false_2; [done|]. by rewrite length_zero_iff_nil.
Qed.

Lemma sampler_pick_index_witness :
  Number.isRandom Sample.threeQuarters
  ∧ DataCn.getRandomAnime Sample.permissive 0
      [Sample.loadedA; Sample.loadedB] Sample.threeQuarters
    = DataCn.Displays Sample.loadedB.
Proof.
  assert (Number.isRandom Sample.threeQuarters) as Hrandom.
  { split_and!; by vm_compute. }
  split; [done|].
  destruct (sampler_pick_index Sample.permissive 0 ∅
              [Sample.loadedA; Sample.loadedB] Sample.threeQuarters Hrandom)
    as (Hd & _).
  destruct (Hd _ eq_refl) as (i & x & Hi & Hx & _ & _ & Hshown & _);
    [done|by vm_compute|].
  assert (Some (Z.of_nat i) = Some 1) as [= Hi1].
  { rewrite <- Hi. by vm_compute. }
  assert (i = 1%nat) as -> by lia.
  vm_compute in Hx. injection Hx as <-.
  apply Hshown. split; [done|]. intros Htruthy. discriminate Htruthy.
Defined.

(** ** The catalog loader *)

Section PromiseAll.
Context {A : Type}.
Implicit Types (vs : list A) (slots : list (option A)) (order : list nat).

Import Loader.

(** Settling fulfilled promises in any order fills exactly the slots
    named, each with the value of its own promise, and never rejects. *)
Lemma settle_fulfilled vs order slots :
  let st := foldl (settleSlot (Fulfilled <$> vs)) (slots, None) order in
  st.2 = None
  ∧ length st.1 = length slots
  ∧ ∀ i, st.1 !! i
         = if decide (i ∈ order ∧ (i < length vs)%nat
                      ∧ (i < length slots)%nat)
           then Some (vs !! i) else slots !! i.
Proof.
  induction order as [|j order IH] using rev_ind; cbn zeta.
  - split_and!; [done..|]. intros i. case_decide as H; [|done].
    destruct H as [H _]. by apply elem_of_nil in H.
  - rewrite foldl_app. cbn [foldl]. cbn zeta in IH.
    destruct IH as (Hrej & Hlen & Hlook).
    destruct (foldl _ _ order) as [s r]. cbn in Hrej, Hlen, Hlook.
    subst r. unfold settleSlot. cbn [fst snd].
    rewrite list_lookup_fmap.
    destruct (vs !! j) as [v|] eqn:Hj;
      cbn [fmap option_fmap option_map fst snd].
    + split_and!; [done|by rewrite length_insert|]. intros i.
      pose proof (lookup_lt_Some _ _ _ Hj) as Hjlt.
      destruct (decide (i = j)) as [->|Hne].
      * destruct (decide (j < length slots)%nat) as [Hlt|Hge].
        -- rewrite list_lookup_insert_eq by lia.
           rewrite decide_True, Hj; [done|].
           split_and!; [|done..]. apply elem_of_app. right.
           by apply list_elem_of_singleton.
        -- rewrite list_insert_ge by lia. rewrite Hlook.
           rewrite !decide_False by tauto. done.
      * rewrite list_lookup_insert_ne by done. rewrite Hlook.
        apply decide_ext.
        rewrite elem_of_app, list_elem_of_singleton. tauto.
    + split_and!; [done..|]. intros i. rewrite Hlook.
      apply decide_ext. apply lookup_ge_None in Hj.
      rewrite elem_of_app, list_elem_of_singleton.
      split; [tauto|]. intros (Hin & Hlt & Hlt').
      split_and!; [|done..]. destruct Hin as [?|Hin]; [done|lia].
Qed.

Lemma promiseAll_fulfilled vs order :
  order ≡ₚ seq 0 (length vs) →
  promiseAll (Fulfilled <$> vs) order = Some (Fulfilled vs).
Proof.
  intros Hperm. unfold promiseAll. rewrite length_fmap.
  destruct (settle_fulfilled vs order (replicate (length vs) None))
    as (Hrej & Hlen & Hlook).
  destruct (foldl _ _ order) as [s r]. cbn in Hrej, Hlen, Hlook.
  subst r. cbn [fst snd]. rewrite length_replicate in Hlen, Hlook.
  assert (s = Some <$> vs) as ->.
  { apply list_eq. intros i. rewrite Hlook, list_lookup_fmap.
    case_decide as Hi.
    - destruct Hi as (_ & Hlt & _).
      destruct (lookup_lt_is_Some_2 vs i Hlt) as [v ->]. done.
    - assert (length vs ≤ i)%nat as Hge.
      { destruct (decide (i < length vs)%nat) as [Hlt|]; [|lia].
        destruct Hi. split_and!; [|done..].
        rewrite Hperm. apply elem_of_seq. lia. }
      rewrite (lookup_ge_None_2 vs) by done.
      apply lookup_ge_None_2. by rewrite length_replicate. }
  by rewrite mapM_fmap_Some.
Qed.
End PromiseAll.

Section LoaderFacts.
Import Loader.
Implicit Types (st : State) (net : Network) (item : ManifestEntry).

(** The inner [try]/[catch] leaves no path on which a season's promise
    rejects. *)
Lemma fetchSeason_fulfils net item :
  fetchSeason net item = Fulfilled (seasonRecords net item).
Proof.
  unfold fetchSeason, seasonRecords, fetch.
  destruct (net (item_year item) (item_season item)) as [|[] [data|]];
    reflexivity.
Qed.

Lemma seasonRecords_fails net item :
  fetchFails net item → seasonRecords net item = [].
Proof.
  unfold fetchFails, seasonRecords.
  destruct (net (item_year item) (item_season item)) as [|[] [data|]];
    by intros.
Qed.

Lemma seasons_fulfil net (m : list ManifestEntry) :
  map (fetchSeason net) m = Fulfilled <$> map (seasonRecords net) m.
Proof.
  rewrite <- list_fmap_compose. apply list_fmap_ext.
  intros _ item _. apply fetchSeason_fulfils.
Qed.

Lemma settleLoad_complete net order st p :
  allAnimePromise st = Some p →
  order ≡ₚ seq 0 (length (manifest st)) →
  settleLoad net order st
  = (Some (Fulfilled (merged net (manifest st))),
     mkState (manifest st) (merged net (manifest st)) None
       (loadsStarted st) (fetchLog st)).
Proof.
  intros Hp Hperm. unfold settleLoad. rewrite Hp, seasons_fulfil.
  rewrite promiseAll_fulfilled; [done|]. by rewrite length_map.
Qed.

Lemma settleLoad_never_rejects net order st e :
  (settleLoad net order st).1 ≠ Some (Rejected e).
Proof.
  unfold settleLoad. destruct (allAnimePromise st); [|done].
  rewrite seasons_fulfil. unfold promiseAll.
  destruct (settle_fulfilled (map (seasonRecords net) (manifest st)) order
              (replicate (length (Fulfilled <$> map (seasonRecords net)
                                    (manifest st))) None))
    as (Hrej & _ & _).
  destruct (foldl _ _ order) as [s r]. cbn in Hrej. subst r. cbn [snd fst].
  destruct (mapM id s); cbn; done.
Qed.

Lemma call_cached st :
  allAnimeCache st ≠ [] →
  loadAllAnimeData st = (Resolved (allAnimeCache st), st).
Proof.
  intros Hne. unfold loadAllAnimeData.
  rewrite bool_decide_eq_true_2; [done|].
  destruct (allAnimeCache st); [done|]. cbn. lia.
Qed.

Lemma call_pending st p :
  allAnimeCache st = [] → allAnimePromise st = Some p →
  loadAllAnimeData st = (Pending p, st).
Proof.
  intros Hc Hp. unfold loadAllAnimeData. rewrite Hc, Hp.
  by rewrite bool_decide_eq_false_2 by (cbn; lia).
Qed.

Lemma step_invariant st ev :
  cacheExcludesLoad st → cacheExcludesLoad (step st ev).
Proof.
  unfold cacheExcludesLoad. intros Hinv. destruct ev as [|net order]; cbn.
  - destruct (allAnimeCache st) as [|a c] eqn:Hc.
    + unfold loadAllAnimeData. rewrite Hc.
      rewrite bool_decide_eq_false_2 by (cbn; lia).
      destruct (allAnimePromise st); cbn; [by rewrite Hc|].
      case_bool_decide; cbn; [by rewrite Hc|done].
    + rewrite call_cached by (by rewrite Hc). cbn. by rewrite Hc.
  - unfold settleLoad. destruct (allAnimePromise st) eqn:Hp; cbn; [|done].
    destruct (promiseAll _ order) as [[v|e]|]; cbn; [done..|].
    by rewrite Hp.
Qed.

Lemma run_invariant evs st :
  cacheExcludesLoad st → cacheExcludesLoad (run evs st).
Proof.
  revert st. induction evs as [|ev evs IH]; intros st Hinv; [done|].
  cbn. apply IH. by apply step_invariant.
Qed.

Lemma initial_invariant m : cacheExcludesLoad (initial m).
Proof. by intros H. Qed.

Lemma step_cached st ev :
  allAnimeCache st ≠ [] → allAnimePromise st = None → step st ev = st.
Proof.
  intros Hc Hp. destruct ev as [|net order]; cbn.
  - by rewrite call_cached.
  - unfold settleLoad. by rewrite Hp.
Qed.

Lemma run_cached evs st :
  allAnimeCache st ≠ [] → allAnimePromise st = None → run evs st = st.
Proof.
  intros Hc Hp. induction evs as [|ev evs IH]; [done|].
  cbn. by rewrite step_cached.
Qed.

Lemma run_app evs1 evs2 st : run (evs1 ++ evs2) st = run evs2 (run evs1 st).
Proof. apply foldl_app. Qed.

(** Any number of calls before the load settles start one fan-out. *)
Lemma calls_fetch_once (m : list ManifestEntry) (n : nat) :
  run (replicate (S n) Call) (initial m)
  = if bool_decide (length m = 0%nat) then initial m
    else mkState m [] (Some 0%nat) 1 (map partitionKey m).
Proof.
  induction n as [|n IH].
  - cbn. unfold loadAllAnimeData. cbn.
    rewrite bool_decide_eq_false_2 by lia. by case_bool_decide.
  - rewrite replicate_S_end, run_app, IH. cbn.
    case_bool_decide as Hm; unfold loadAllAnimeData; cbn;
      rewrite bool_decide_eq_false_2 by lia; [|done].
    by rewrite bool_decide_eq_true_2.
Qed.
End LoaderFacts.

Section LoaderClaims.
Import Loader.

Lemma first_call_starts (m : list ManifestEntry) :
  m ≠ [] →
  step (initial m) Call = mkState m [] (Some 0%nat) 1 (map partitionKey m).
Proof.
  intros Hm. cbn. unfold loadAllAnimeData. cbn.
  rewrite bool_decide_eq_false_2 by lia.
  rewrite bool_decide_eq_false_2; [done|]. by rewrite length_zero_iff_nil.
Qed.

Lemma load_then_settle (m : list ManifestEntry) net order :
  order ≡ₚ seq 0 (length m) →
  allAnimeCache (run [Call; Settle net order] (initial m)) = merged net m.
Proof.
  intros Hperm. destruct (decide (m = [])) as [->|Hm]; [done|].
  change (run [Call; Settle net order] (initial m))
    with (step (step (initial m) Call) (Settle net order)).
  rewrite first_call_starts by done. cbn [step].
  by erewrite settleLoad_complete.
Qed.

Lemma seasonRecords_contributes net item :
  contributes net item (seasonRecords net item).
Proof.
  unfold contributes, seasonRecords.
  destruct (net (item_year item) (item_season item)) as [|[] [data|]];
    try done.
  apply Forall2_fmap_r, Forall_Forall2_diag, Forall_forall.
  intros a _. by repeat split.
Qed.

(** C7: the merged result is the concatenation, in manifest order, of
    what each season contributes: for a season whose file was fetched and
    parsed, the file's records one by one in the file's order, each with
    all its fields and with that season's year and season attached; for
    any other season, nothing.  This holds whatever the order in which
    the season fetches settle, and the load fulfils with that list. *)
Theorem load_merges_in_manifest_order (m : list ManifestEntry)
    (net : Network) (order : list nat) :
  order ≡ₚ seq 0 (length m) →
  ∃ seasons : list (list Anime),
    Forall2 (contributes net) m seasons
    ∧ allAnimeCache (run [Call; Settle net order] (initial m))
      = concat seasons
    ∧ (m ≠ [] →
       (settleLoad net order (step (initial m) Call)).1
       = Some (Fulfilled (concat seasons))).
Proof.
  intros Hperm. exists (map (seasonRecords net) m). split_and!.
  - apply Forall2_fmap_r, Forall_Forall2_diag, Forall_forall.
    intros item _. apply seasonRecords_contributes.
  - by apply load_then_settle.
  - intros Hm. rewrite first_call_starts by done.
    by erewrite settleLoad_complete.
Qed.

Lemma load_merges_in_manifest_order_witness :
  [1%nat; 0%nat] ≡ₚ seq 0 2
  ∧ allAnimeCache
      (run [Call; Settle LoaderSample.bothSeasons [1%nat; 0%nat]]
         (initial [LoaderSample.winter2024; LoaderSample.spring2024]))
    = [Sample.loadedA; Sample.loadedB;
       mkAnime 3 "Z" (JNum 0) (JBool false) (JBool true) (Some ["Action"])
         (Some 2024) (Some "spring")]
  ∧ ∃ seasons,
      Forall2 (contributes LoaderSample.bothSeasons)
        [LoaderSample.winter2024; LoaderSample.spring2024] seasons
      ∧ allAnimeCache
          (run [Call; Settle LoaderSample.bothSeasons [1%nat; 0%nat]]
             (initial [LoaderSample.winter2024; LoaderSample.spring2024]))
        = concat seasons.
Proof.
  assert ([1%nat; 0%nat] ≡ₚ seq 0 2) as Hperm by apply Permutation_swap.
  split; [done|]. split; [reflexivity|].
  destruct (load_merges_in_manifest_order
              [LoaderSample.winter2024; LoaderSample.spring2024]
              LoaderSample.bothSeasons [1%nat; 0%nat] Hperm)
    as (seasons & Hcontrib & Hcache & _).
  by exists seasons.
Defined.

(** C8: a season whose fetch fails (network error or non-success
    response) is recovered inside its own callback, whose promise
    fulfils with no records; the load fulfils with the records of the
    other seasons, and no load ever settles as a rejection. *)
Theorem partition_failure_recovered (m1 m2 : list ManifestEntry)
    (item : ManifestEntry) (net : Network) (order : list nat) :
  fetchFails net item →
  order ≡ₚ seq 0 (length (m1 ++ item :: m2)) →
  fetchSeason net item = Fulfilled []
  ∧ (settleLoad net order (step (initial (m1 ++ item :: m2)) Call)).1
    = Some (Fulfilled (merged net m1 ++ merged net m2))
  ∧ allAnimeCache
      (run [Call; Settle net order] (initial (m1 ++ item :: m2)))
    = merged net m1 ++ merged net m2
  ∧ ∀ st order' e, (settleLoad net order' st).1 ≠ Some (Rejected e).
Proof.
  intros Hfail Hperm.
  assert (merged net (m1 ++ item :: m2) = merged net m1 ++ merged net m2)
    as Hmerge.
  { unfold merged. rewrite map_app, concat_app. cbn.
    by rewrite seasonRecords_fails. }
  split_and!.
  - by rewrite fetchSeason_fulfils, seasonRecords_fails.
  - rewrite first_call_starts by (by destruct m1).
    erewrite settleLoad_complete; [|done..].
    cbn [fst manifest]. by rewrite Hmerge.
  - by rewrite load_then_settle.
  - intros st order' e. apply settleLoad_never_rejects.
Qed.

Lemma partition_failure_recovered_witness :
  fetchFails LoaderSample.winterOnly LoaderSample.spring2024
  ∧ [0%nat; 1%nat] ≡ₚ seq 0 2
  ∧ allAnimeCache
      (run [Call; Settle LoaderSample.winterOnly [0%nat; 1%nat]]
         (initial [LoaderSample.winter2024; LoaderSample.spring2024]))
    = [annotate LoaderSample.winter2024 Sample.animeA;
       annotate LoaderSample.winter2024 Sample.animeB].
Proof.
  assert (fetchFails LoaderSample.winterOnly LoaderSample.spring2024)
    as Hfail by reflexivity.
  assert ([0%nat; 1%nat] ≡ₚ seq 0 2) as Hperm by reflexivity.
  split_and!; [done..|].
  destruct (partition_failure_recovered [LoaderSample.winter2024] []
              LoaderSample.spring2024 LoaderSample.winterOnly
              [0%nat; 1%nat] Hfail Hperm) as (_ & _ & H & _).
  exact H.
Defined.

(** C5, as stated, fails: when the first load completes with no record
    (here its only season is unreachable) nothing is cached, and the
    next call fetches the season again. *)
Lemma C5_counterexample : ¬ fetchedAtMostOnce.
Proof.
  intros H.
  specialize (H [LoaderSample.winter2024] LoaderSample.offline [0%nat]
                [Call] (reflexivity _)).
  vm_compute in H. discriminate H.
Qed.

Lemma fetched_once_when_nonempty (m : list ManifestEntry) (net : Network)
    (order : list nat) (n : nat) (evs : list Event) :
  order ≡ₚ seq 0 (length m) → merged net m ≠ [] →
  let st := run (replicate (S n) Call ++ [Settle net order]) (initial m) in
  allAnimeCache st = merged net m
  ∧ fetchLog st = map partitionKey m
  ∧ run evs st = st.
Proof.
  intros Hperm Hne. cbn zeta.
  assert (m ≠ []) as Hm by (by intros ->).
  rewrite run_app, calls_fetch_once.
  rewrite bool_decide_eq_false_2 by (by rewrite length_zero_iff_nil).
  assert (run [Settle net order]
            (mkState m [] (Some 0%nat) 1 (map partitionKey m))
          = mkState m (merged net m) None 1 (map partitionKey m)) as ->.
  { unfold run. cbn [foldl step]. by erewrite settleLoad_complete. }
  split_and!; [done..|]. by apply run_cached.
Qed.

(** C5 (amended): a call made while a load is in flight is handed that
    same load and issues no fetch, so any number of concurrent calls
    cause one fetch per partition; once a load has completed with at
    least one record, the state never changes again: every later call
    returns the cached list and nothing is fetched.  (A load that
    completes with no record leaves nothing cached.) *)
Theorem loader_caching (m : list ManifestEntry) (evs : list Event) :
  let st := run evs (initial m) in
  (∀ p, allAnimePromise st = Some p →
        loadAllAnimeData st = (Pending p, st))
  ∧ (allAnimeCache st ≠ [] →
     loadAllAnimeData st = (Resolved (allAnimeCache st), st)
     ∧ ∀ evs', run evs' st = st)
  ∧ (∀ n, fetchLog (run (replicate (S n) Call) (initial m))
          = map partitionKey m)
  ∧ (∀ net order n evs',
       order ≡ₚ seq 0 (length m) → merged net m ≠ [] →
       fetchLog
         (run (replicate (S n) Call ++ Settle net order :: evs')
            (initial m))
       = map partitionKey m).
Proof.
  cbn zeta.
  pose proof (run_invariant evs _ (initial_invariant m)) as Hinv.
  split_and!.
  - intros p Hp. apply call_pending; [|done].
    destruct (allAnimeCache (run evs (initial m))) eqn:Hc; [done|].
    unfold cacheExcludesLoad in Hinv. rewrite Hc, Hp in Hinv.
    by discriminate Hinv.
  - intros Hc. split; [by apply call_cached|].
    intros evs'. apply run_cached; [done|]. by apply Hinv.
  - intros n. rewrite calls_fetch_once. case_bool_decide as Hm; [|done].
    apply length_zero_iff_nil in Hm. by subst m.
  - intros net order n evs' Hperm Hne.
    destruct (fetched_once_when_nonempty m net order n evs' Hperm Hne)
      as (_ & Hlog & Hrun).
    change (Settle net order :: evs') with ([Settle net order] ++ evs').
    rewrite app_assoc, run_app, Hrun. done.
Qed.

Lemma loader_caching_witness :
  [1%nat; 0%nat] ≡ₚ seq 0 2
  ∧ merged LoaderSample.winterOnly
      [LoaderSample.winter2024; LoaderSample.spring2024] ≠ []
  ∧ fetchLog
      (run (replicate 2 Call
            ++ Settle LoaderSample.winterOnly [1%nat; 0%nat] :: [Call; Call])
         (initial [LoaderSample.winter2024; LoaderSample.spring2024]))
    = [(2024, "winter"); (2024, "spring")].
Proof.
  assert ([1%nat; 0%nat] ≡ₚ seq 0 2) as Hperm by apply Permutation_swap.
  assert (merged LoaderSample.winterOnly
            [LoaderSample.winter2024; LoaderSample.spring2024] ≠ [])
    as Hne by discriminate.
  split_and!; [done..|].
  destruct (loader_caching
              [LoaderSample.winter2024; LoaderSample.spring2024] [])
    as (_ & _ & _ & H).
  by rewrite (H LoaderSample.winterOnly [1%nat; 0%nat] 1%nat [Call; Call]
                Hperm Hne).
Defined.
End LoaderClaims.

(** ** Sorting *)

Section JsSortFacts.
Context {A : Type} (comparefn : A → A → Z).

Local Abbreviation precedes := (inOrder comparefn).

Hypothesis precedes_total : ∀ a b, precedes a b ∨ precedes b a.
Hypothesis precedes_trans :
  ∀ a b c, precedes a b → precedes b c → precedes a c.

Lemma insertSorted_perm (x : A) (l : list A) :
  insertSorted comparefn x l ≡ₚ x :: l.
Proof.
  induction l as [|y l IH]; cbn [insertSorted]; [done|].
  case_bool_decide; [done|]. rewrite IH. apply Permutation_swap.
Qed.

Lemma jsSort_perm (l : list A) : jsSort comparefn l ≡ₚ l.
Proof.
  induction l as [|x l IH]; [done|].
  cbn. by rewrite insertSorted_perm, IH.
Qed.

Lemma insertSorted_sorted (x : A) (l : list A) :
  StronglySorted precedes l →
  StronglySorted precedes (insertSorted comparefn x l).
Proof.
  induction 1 as [|y l Hsorted IH Hall]; cbn [insertSorted].
  - by repeat constructor.
  - case_bool_decide as Hxy.
    + constructor; [by constructor|]. constructor; [done|].
      eapply Forall_impl; [done|]. intros z Hz. by eapply precedes_trans.
    + constructor; [done|].
      rewrite insertSorted_perm. constructor; [|done].
      by destruct (precedes_total x y).
Qed.

Lemma jsSort_sorted (l : list A) :
  StronglySorted precedes (jsSort comparefn l).
Proof.
  induction l as [|x l IH]; cbn; [constructor|]. by apply insertSorted_sorted.
Qed.
End JsSortFacts.

Lemma StronglySorted_weaken {A} (R1 R2 : relation A) (l : list A) :
  (∀ x y, R1 x y → R2 x y) → StronglySorted R1 l → StronglySorted R2 l.
Proof.
  intros Himpl. induction 1 as [|x l _ IH Hall]; constructor; [done|].
  eapply Forall_impl; [done|]. intros y. apply Himpl.
Qed.

Lemma defaultCompare_le (s1 s2 : string) :
  inOrder defaultCompare s1 s2 ↔ String.le s1 s2.
Proof.
  unfold inOrder, defaultCompare, String.le, String.leb.
  destruct (String.compare s1 s2); cbn; intuition (try lia; try done).
Qed.

Lemma sortStrings_perm (l : list string) : jsSort defaultCompare l ≡ₚ l.
Proof. apply jsSort_perm. Qed.

Lemma sortStrings_alphabetical (l : list string) :
  alphabetical (jsSort defaultCompare l).
Proof.
  unfold alphabetical.
  eapply (StronglySorted_weaken (inOrder defaultCompare)).
  - intros s1 s2. apply defaultCompare_le.
  - apply jsSort_sorted.
    + intros a b. rewrite !defaultCompare_le. apply total, _.
    + intros a b c. rewrite !defaultCompare_le. apply transitivity.
Qed.

Lemma byCount_inOrder (a b : string * Z) :
  inOrder Genres.byCountDesc a b ↔ b.2 ≤ a.2.
Proof. unfold inOrder, Genres.byCountDesc. lia. Qed.

Lemma sortByCount_sorted (m : list (string * Z)) :
  StronglySorted (inOrder Genres.byCountDesc) (jsSort Genres.byCountDesc m).
Proof.
  apply jsSort_sorted.
  - intros a b. rewrite !byCount_inOrder. lia.
  - intros a b c. rewrite !byCount_inOrder. lia.
Qed.

(** ** Counting genres *)

Section GenreCounting.
Import Genres.
Implicit Types (m : list (string * Z)) (k g : string) (gs : list string).

Lemma mapGet_None m k : mapGet m k = None ↔ k ∉ m.*1.
Proof.
  induction m as [|[k' v] m IH]; cbn.
  - split; [|done]. intros _ H. by apply elem_of_nil in H.
  - destruct (String.eqb_spec k' k) as [->|Hne].
    + split; [done|]. intros H. destruct H. by left.
    + rewrite IH, not_elem_of_cons.
      split; [intros ?; split; [congruence|done] | by intros [_ ?]].
Qed.

Lemma mapGet_elem_of m k v : mapGet m k = Some v → (k, v) ∈ m.
Proof.
  induction m as [|[k' v'] m IH]; cbn; [done|].
  destruct (String.eqb_spec k' k) as [->|Hne].
  - intros [= ->]. by left.
  - intros H. right. by apply IH.
Qed.

Lemma elem_of_mapGet m k v : NoDup m.*1 → (k, v) ∈ m → mapGet m k = Some v.
Proof.
  induction m as [|[k' v'] m IH]; cbn.
  - intros _ H. by apply elem_of_nil in H.
  - intros [Hnotin Hnd]%NoDup_cons [Heq|Hin]%elem_of_cons.
    + injection Heq as -> ->. by rewrite String.eqb_refl.
    + destruct (String.eqb_spec k' k) as [->|Hne]; [|by apply IH].
      destruct Hnotin. apply list_elem_of_fmap. by exists (k, v).
Qed.

Lemma mapSet_keys m k v :
  (mapSet m k v).*1 = if decide (k ∈ m.*1) then m.*1 else m.*1 ++ [k].
Proof.
  induction m as [|[k' v'] m IH]; cbn; [done|].
  destruct (String.eqb_spec k' k) as [->|Hne]; cbn.
  - rewrite decide_True; [done|]. by left.
  - rewrite IH. destruct (decide (k ∈ m.*1)) as [Hin|Hnotin].
    + rewrite decide_True; [done|]. by right.
    + rewrite decide_False; [done|].
      intros [?|?]%elem_of_cons; [by subst|done].
Qed.

Lemma mapGet_mapSet m k v k' :
  mapGet (mapSet m k v) k' = if decide (k = k') then Some v else mapGet m k'.
Proof.
  induction m as [|[k0 v0] m IH]; cbn.
  - destruct (String.eqb_spec k k'); by case_decide.
  - destruct (String.eqb_spec k0 k) as [->|Hne]; cbn.
    + destruct (String.eqb_spec k k'); by case_decide.
    + destruct (String.eqb_spec k0 k') as [->|Hne'].
      * by rewrite decide_False by done.
      * apply IH.
Qed.

Lemma mapSet_NoDup m k v : NoDup m.*1 → NoDup (mapSet m k v).*1.
Proof.
  intros Hnd. rewrite mapSet_keys. case_decide as Hin; [done|].
  apply NoDup_app. split_and!; [done| |apply NoDup_singleton].
  intros x Hx ->%list_elem_of_singleton. done.
Qed.

Lemma occurrences_cons gs g x :
  occurrences (x :: gs) g = (if decide (x = g) then 1 else 0) + occurrences gs g.
Proof.
  unfold occurrences. destruct (decide (x = g)).
  - rewrite filter_cons_True by done. cbn [length]. lia.
  - rewrite filter_cons_False by done. lia.
Qed.

Lemma occurrences_snoc gs g x :
  occurrences (gs ++ [x]) g
  = occurrences gs g + (if decide (x = g) then 1 else 0).
Proof.
  unfold occurrences. rewrite filter_app, length_app.
  destruct (decide (x = g)).
  - rewrite filter_cons_True, filter_nil by done. cbn [length]. lia.
  - rewrite filter_cons_False, filter_nil by done. cbn [length]. lia.
Qed.

Lemma occurrences_pos gs g : 0 < occurrences gs g ↔ g ∈ gs.
Proof.
  induction gs as [|x gs IH].
  - unfold occurrences. rewrite filter_nil. cbn [length].
    split; [lia|]. intros H. by apply elem_of_nil in H.
  - rewrite occurrences_cons, elem_of_cons.
    assert (0 ≤ occurrences gs g) by (unfold occurrences; lia).
    case_decide; subst; [split; [by left|lia]|].
    rewrite Z.add_0_l, IH. intuition congruence.
Qed.

Lemma counted_nil : counted [] [].
Proof.
  split; [constructor| |done].
  intros g. split; [intros H|intros [_ H]]; by apply elem_of_nil in H.
Qed.

Lemma counted_step m gs g :
  counted m gs → counted (countGenre m g) (gs ++ [g]).
Proof.
  intros [Hnd Hkeys Hheld]. unfold countGenre.
  destruct (isFacet g) eqn:Hfacet.
  - split.
    + by apply mapSet_NoDup.
    + intros g'. rewrite mapSet_keys, elem_of_app, list_elem_of_singleton.
      case_decide as Hin.
      * rewrite Hkeys. apply Hkeys in Hin.
        intuition (subst; auto).
      * rewrite elem_of_app, list_elem_of_singleton, Hkeys.
        intuition (subst; auto).
    + intros g' Hg'. unfold held. rewrite mapGet_mapSet, occurrences_snoc.
      fold (held m g). case_decide as Heq; cbn [default].
      * subst g'. rewrite Hheld by done. reflexivity.
      * fold (held m g'). rewrite Hheld by done. lia.
  - split; [done| |].
    + intros g'. rewrite Hkeys, elem_of_app, list_elem_of_singleton.
      split; [tauto|]. intros [Hf [?| ->]]; [done|congruence].
    + intros g' Hg'. rewrite Hheld, occurrences_snoc by done.
      rewrite decide_False by congruence. lia.
Qed.

Lemma counted_fold m gs gs' :
  counted m gs → counted (foldl countGenre m gs') (gs ++ gs').
Proof.
  revert m gs. induction gs' as [|g gs' IH]; intros m gs Hc; cbn.
  - by rewrite app_nil_r.
  - rewrite (cons_middle g gs gs'), app_assoc. by apply IH, counted_step.
Qed.

Lemma countAnime_flat m (l : list Anime) :
  foldl countAnime m l = foldl countGenre m (genreOccurrences l).
Proof.
  revert m. induction l as [|a l IH]; intros m; [done|].
  unfold genreOccurrences. cbn. rewrite foldl_app.
  fold (genreOccurrences l). rewrite <- IH. f_equal.
  unfold countAnime, genreList. by destruct (genres a).
Qed.

Lemma genreCounts_counted (l : list Anime) :
  counted (genreCounts l) (genreOccurrences l).
Proof.
  unfold genreCounts. rewrite countAnime_flat.
  apply (counted_fold [] []), counted_nil.
Qed.

Lemma frequency_occurrences (l : list Anime) g :
  frequency l g = occurrences (genreOccurrences l) g.
Proof. done. Qed.

(** Every entry of the counter holds a facet genre with its frequency,
    and every facet genre that occurs has its entry. *)
Lemma genreCounts_entry (l : list Anime) g c :
  (g, c) ∈ genreCounts l
  ↔ isFacet g = true ∧ g ∈ genreOccurrences l ∧ c = frequency l g.
Proof.
  destruct (genreCounts_counted l) as [Hnd Hkeys Hheld]. split.
  - intros Hin.
    assert (g ∈ (genreCounts l).*1) as Hk.
    { apply list_elem_of_fmap. by exists (g, c). }
    apply Hkeys in Hk as [Hf Hocc]. split_and!; [done..|].
    rewrite frequency_occurrences, <- Hheld by done.
    unfold held. by rewrite (elem_of_mapGet _ _ c).
  - intros (Hf & Hocc & ->).
    assert (g ∈ (genreCounts l).*1) as Hk by (by apply Hkeys).
    destruct (mapGet (genreCounts l) g) as [c|] eqn:Hget.
    + rewrite frequency_occurrences, <- Hheld by done.
      unfold held. rewrite Hget. by apply mapGet_elem_of.
    + by apply mapGet_None in Hget.
Qed.
End GenreCounting.

(** ** The genre facets *)

Section GenreFacets.
Import Genres AppGenres.
Implicit Types (l : list Anime) (g h : string).

(** "Action" is met first, "Comedy" twice, "Drama" last: the ranking
    puts "Comedy" first and leaves the tie in order of first appearance. *)
Example ranked_sample :
  ranked [Sample.animeA; Sample.animeB;
          mkAnime 7 "D" JNull JUndefined JUndefined (Some ["Drama"]) None None]
  = [("Comedy", 2); ("Action", 1); ("Drama", 1)].
Proof. reflexivity. Qed.

Lemma ranked_perm l : ranked l ≡ₚ genreCounts l.
Proof. apply jsSort_perm. Qed.

Lemma ranked_entry l g c :
  (g, c) ∈ ranked l
  ↔ isFacet g = true ∧ g ∈ genreOccurrences l ∧ c = frequency l g.
Proof. by rewrite ranked_perm, genreCounts_entry. Qed.

Lemma ranked_nodup l : NoDup (ranked l).*1.
Proof.
  rewrite ranked_perm. apply (counted_nodup _ _ (genreCounts_counted l)).
Qed.

Lemma loadGenres_perm l : loadGenres l ≡ₚ (take 30 (ranked l)).*1.
Proof. apply sortStrings_perm. Qed.

Lemma loadGenres_elem l g :
  g ∈ loadGenres l ↔ (g, frequency l g) ∈ take 30 (ranked l).
Proof.
  rewrite loadGenres_perm, list_elem_of_fmap. split.
  - intros ([g' c] & -> & Hin). cbn.
    pose proof Hin as Hr.
    apply (subseteq_take 30) in Hr. apply ranked_entry in Hr as (_ & _ & ->).
    done.
  - intros Hin. by exists (g, frequency l g).
Qed.

Lemma loadGenres_nodup l : NoDup (loadGenres l).
Proof.
  rewrite loadGenres_perm.
  eapply sublist_NoDup; [apply (ranked_nodup l)|].
  apply fmap_sublist, sublist_take.
Qed.

Lemma loadGenres_facet l g :
  g ∈ loadGenres l → isFacet g = true ∧ g ∈ genreOccurrences l.
Proof.
  rewrite loadGenres_elem. intros Hin.
  apply (subseteq_take 30), ranked_entry in Hin. tauto.
Qed.

(** Membership goes by frequency: a facet genre listed more often than
    some genre of the result is in the result. *)
Lemma loadGenres_by_frequency l g h :
  g ∈ loadGenres l → isFacet h = true →
  frequency l g < frequency l h → h ∈ loadGenres l.
Proof.
  rewrite !loadGenres_elem. intros Hg Hh Hlt.
  assert (h ∈ genreOccurrences l) as Hocc.
  { apply occurrences_pos. unfold frequency, occurrences in *. lia. }
  assert ((h, frequency l h) ∈ ranked l) as Hin by (by apply ranked_entry).
  rewrite <- (take_drop 30 (ranked l)) in Hin.
  apply elem_of_app in Hin as [Hin|Hin]; [done|].
  pose proof (sortByCount_sorted (genreCounts l)) as Hsorted.
  fold (ranked l) in Hsorted. rewrite <- (take_drop 30 (ranked l)) in Hsorted.
  pose proof (StronglySorted_app_1_elem_of _ _ _ _ _ Hsorted Hg Hin) as Hord.
  apply byCount_inOrder in Hord. cbn in Hord. lia.
Qed.

Lemma addAnime_flat (X : gset string) l :
  foldl addAnime X l = foldl addGenre X (genreOccurrences l).
Proof.
  revert X. induction l as [|a l IH]; intros X; [done|].
  unfold genreOccurrences. cbn. rewrite foldl_app.
  fold (genreOccurrences l). rewrite <- IH. f_equal.
  unfold addAnime, genreList. by destruct (genres a).
Qed.

Lemma addGenre_fold (X : gset string) (gs : list string) g :
  g ∈ foldl addGenre X gs ↔ g ∈ X ∨ (isFacet g = true ∧ g ∈ gs).
Proof.
  revert X. induction gs as [|x gs IH]; intros X; cbn.
  - split; [by left|]. intros [?|[_ H]]; [done|]. by apply elem_of_nil in H.
  - rewrite IH, elem_of_cons. unfold addGenre.
    destruct (isFacet x) eqn:Hx.
    + rewrite elem_of_union, elem_of_singleton.
      intuition (subst; auto).
    + intuition (subst; auto). congruence.
Qed.

Lemma extractGenres_elem l g :
  g ∈ extractGenres l ↔ isFacet g = true ∧ g ∈ genreOccurrences l.
Proof.
  unfold extractGenres.
  rewrite sortStrings_perm, elem_of_elements, addAnime_flat, addGenre_fold.
  split; [|by right]. intros [H|H]; [|done]. by apply elem_of_empty in H.
Qed.

Lemma extractGenres_nodup l : NoDup (extractGenres l).
Proof.
  unfold extractGenres. rewrite sortStrings_perm. apply NoDup_elements.
Qed.

Lemma counter_keys_perm l : (genreCounts l).*1 ≡ₚ extractGenres l.
Proof.
  destruct (genreCounts_counted l) as [Hnd Hkeys _].
  apply NoDup_Permutation; [done|apply extractGenres_nodup|].
  intros g. by rewrite Hkeys, extractGenres_elem.
Qed.

Lemma loadGenres_length l :
  length (loadGenres l) = (30 `min` length (extractGenres l))%nat.
Proof.
  rewrite loadGenres_perm, length_fmap, length_take.
  by rewrite <- counter_keys_perm, <- ranked_perm, length_fmap.
Qed.

Lemma loadGenres_all l :
  (length (extractGenres l) ≤ 30)%nat → loadGenres l = extractGenres l.
Proof.
  intros Hlen.
  apply (StronglySorted_unique String.le).
  - apply sortStrings_alphabetical.
  - apply sortStrings_alphabetical.
  - rewrite loadGenres_perm, take_ge.
    + by rewrite ranked_perm, counter_keys_perm.
    + by rewrite ranked_perm, <- (length_fmap fst), counter_keys_perm.
Qed.
End GenreFacets.

Lemma isFacet_spec (g : string) : isFacet g = true ↔ selectable g.
Proof.
  unfold isFacet, selectable.
  rewrite andb_true_iff, !negb_true_iff, !String.eqb_neq. done.
Qed.

(** C6, as stated, fails for the season browser: [extractGenres] neither
    ranks nor truncates, so a season with 31 distinct genres yields 31
    facets. *)
Lemma C6_counterexample :
  ¬ (length (AppGenres.extractGenres Sample.crowded) ≤ 30)%nat.
Proof. vm_compute. lia. Qed.

(** C6 (amended): [loadGenres] (random picker) returns distinct, non-empty
    genre values other than "Hentai", in alphabetical order; it keeps the
    30 most frequent of them (all of them when there are at most 30), and
    membership goes by frequency: a selectable genre listed more often
    than a genre of the result is in the result.  [extractGenres] (season
    browser) returns every distinct non-empty genre value other than
    "Hentai" in alphabetical order, without ranking or truncation; the two
    lists are equal when there are at most 30 such genres. *)
Theorem genre_facets (l : list Anime) :
  (NoDup (Genres.loadGenres l)
   ∧ alphabetical (Genres.loadGenres l)
   ∧ length (Genres.loadGenres l)
     = (30 `min` length (AppGenres.extractGenres l))%nat
   ∧ (∀ g, g ∈ Genres.loadGenres l →
           selectable g ∧ g ∈ genreOccurrences l)
   ∧ (∀ g h, g ∈ Genres.loadGenres l → selectable h →
             frequency l g < frequency l h → h ∈ Genres.loadGenres l))
  ∧ (NoDup (AppGenres.extractGenres l)
     ∧ alphabetical (AppGenres.extractGenres l)
     ∧ ∀ g, g ∈ AppGenres.extractGenres l
            ↔ selectable g ∧ g ∈ genreOccurrences l)
  ∧ ((length (AppGenres.extractGenres l) ≤ 30)%nat →
     Genres.loadGenres l = AppGenres.extractGenres l).
Proof.
  split_and!.
  - apply loadGenres_nodup.
  - apply sortStrings_alphabetical.
  - apply loadGenres_length.
  - intros g Hg. rewrite <- isFacet_spec. by apply loadGenres_facet.
  - intros g h Hg Hh. apply loadGenres_by_frequency; [done|].
    by apply isFacet_spec.
  - apply extractGenres_nodup.
  - apply sortStrings_alphabetical.
  - intros g. rewrite <- isFacet_spec. apply extractGenres_elem.
  - apply loadGenres_all.
Qed.

Lemma genre_facets_witness :
  Genres.loadGenres [Sample.animeA; Sample.animeB; Sample.adultUnrated]
  = ["Action"; "Comedy"]
  ∧ length (Genres.loadGenres Sample.crowded) = 30%nat.
Proof.
  pose proof (genre_facets
                [Sample.animeA; Sample.animeB; Sample.adultUnrated])
    as (_ & _ & H1).
  pose proof (genre_facets Sample.crowded) as ((_ & _ & H2 & _) & _).
  split.
  - rewrite H1; [by vm_compute | vm_compute; lia].
  - rewrite H2. by vm_compute.
Defined.

(** * Further properties *)

(** ** The moving average of the rating chart *)

Section MovingAverage.
Import Charts.
Implicit Types (data : list spec_float) (w : Z) (i : nat).

Lemma calculateMovingAverage_lookup data w i :
  (i < length data)%nat →
  calculateMovingAverage data w !! i = Some (averageAt data w i).
Proof.
  intros Hi. unfold calculateMovingAverage.
  rewrite list_lookup_fmap, lookup_seq_lt by done. done.
Qed.

Lemma slice_window data (w i : nat) :
  (0 < w)%nat → (w - 1 ≤ i)%nat → (i < length data)%nat →
  slice data (Z.of_nat i - Z.of_nat w + 1) (Z.of_nat i + 1) = window data w i.
Proof.
  intros Hw Hwi Hi. unfold slice, window.
  rewrite !bool_decide_eq_false_2 by lia.
  rewrite !Z.min_l by lia. f_equal; [lia|]. f_equal. lia.
Qed.

Lemma window_length data (w i : nat) :
  (0 < w)%nat → (w - 1 ≤ i)%nat → (i < length data)%nat →
  length (window data w i) = w.
Proof.
  intros Hw Hwi Hi. unfold window. rewrite length_take, length_drop. lia.
Qed.

Lemma slice_empty data (start final : Z) :
  0 ≤ final → final ≤ start → slice data start final = [].
Proof.
  intros H0 Hle. unfold slice.
  rewrite !bool_decide_eq_false_2 by lia.
  replace (Z.to_nat _) with 0%nat by lia. done.
Qed.

Lemma calculateMovingAverage_length data (windowSize : Z) :
  length (calculateMovingAverage data windowSize) = length data.
Proof. unfold calculateMovingAverage. by rewrite length_map, length_seq. Qed.
End MovingAverage.

Section MovingAverageProperties.
Import Charts.
Implicit Types (data : list spec_float) (i : nat).

(** X1: the moving average has one entry per data point, and a series
    shorter than the window yields nothing but [null]. *)
Theorem moving_average_shape data (windowSize : Z) :
  length (calculateMovingAverage data windowSize) = length data
  ∧ (Z.of_nat (length data) < windowSize →
     calculateMovingAverage data windowSize = replicate (length data) None).
Proof.
  split; [apply calculateMovingAverage_length|].
  intros Hshort. apply list_eq. intros i.
  destruct (decide (i < length data)%nat) as [Hi|Hi].
  - rewrite calculateMovingAverage_lookup, lookup_replicate_2 by done.
    unfold averageAt. by rewrite bool_decide_eq_true_2 by lia.
  - rewrite !lookup_ge_None_2; [done|..].
    + rewrite length_replicate. lia.
    + rewrite calculateMovingAverage_length. lia.
Qed.

Lemma moving_average_shape_witness :
  (Z.of_nat (length fourRatings) < 5)%Z
  ∧ calculateMovingAverage fourRatings 5 = [None; None; None; None].
Proof.
  assert (Z.of_nat (length fourRatings) < 5)%Z as H by (cbn; lia).
  split; [done|].
  by rewrite (proj2 (moving_average_shape fourRatings 5) H).
Defined.

(** X2: for a window of [w >= 1] points the entries before index [w - 1]
    are [null], and every later entry is computed from exactly the [w]
    data points that end at its index: their sum, added up from the left
    starting at 0, divided by [w], every addition and the division
    rounded to binary64. *)
Theorem moving_average_window data (w i : nat) :
  (0 < w)%nat → (i < length data)%nat →
  if decide (i < w - 1)%nat
  then calculateMovingAverage data (Z.of_nat w) !! i = Some None
  else calculateMovingAverage data (Z.of_nat w) !! i
       = Some (Some (SFdiv 53 1024
                       (foldl (SFadd 53 1024) (S754_zero false)
                          (take w (drop (S i - w) data)))
                       (binary_normalize 53 1024 (Z.of_nat w) 0 false)))
       ∧ length (take w (drop (S i - w) data)) = w.
Proof.
  intros Hw Hi. rewrite calculateMovingAverage_lookup by done.
  unfold averageAt. case_decide as Hlt.
  - by rewrite bool_decide_eq_true_2 by lia.
  - rewrite bool_decide_eq_false_2 by lia.
    rewrite slice_window by lia. split; [done|].
    apply window_length; lia.
Qed.

(** The last entry for the ratings 7.45, 7.55, 7.6 and 7.3 is
    7.4750000000000005, one unit in the last place above their mean. *)
Lemma moving_average_window_witness :
  (0 < 4)%nat ∧ (3 < length fourRatings)%nat
  ∧ calculateMovingAverage fourRatings (Z.of_nat 4) !! 3%nat
    = Some (Some (S754_finite false 8416101803648615 (-50))).
Proof.
  assert (0 < 4)%nat as Hw by lia.
  assert (3 < length fourRatings)%nat as Hi by (cbn; lia).
  split_and!; [done..|].
  pose proof (moving_average_window fourRatings 4 3 Hw Hi) as H.
  rewrite decide_False in H by lia. destruct H as [-> _].
  by vm_compute.
Defined.

(** X4: the window size is not checked: with a window of 0 every entry
    is [NaN] (0/0), and with a negative window every entry is zero (the
    negative zero, 0 divided by a negative number). *)
Theorem moving_average_degenerate data (windowSize : Z) (i : nat) :
  windowSize ≤ 0 → (i < length data)%nat →
  if decide (windowSize = 0)
  then calculateMovingAverage data windowSize !! i = Some (Some S754_nan)
  else calculateMovingAverage data windowSize !! i
       = Some (Some (S754_zero true)).
Proof.
  intros Hw Hi. rewrite calculateMovingAverage_lookup by done.
  unfold averageAt. rewrite bool_decide_eq_false_2 by lia.
  rewrite slice_empty by lia. unfold divide, total. cbn [foldl].
  case_decide as Hz.
  - by subst windowSize.
  - by destruct (ofZ_negative windowSize) as [(m & e & ->)| ->]; [lia|..].
Qed.

Lemma moving_average_degenerate_witness :
  calculateMovingAverage fourRatings 0 !! 1%nat = Some (Some S754_nan)
  ∧ calculateMovingAverage fourRatings (-4) !! 1%nat
    = Some (Some (S754_zero true)).
Proof.
  assert (1 < length fourRatings)%nat as Hi by (cbn; lia).
  split.
  - exact (moving_average_degenerate fourRatings 0 1 ltac:(lia) Hi).
  - exact (moving_average_degenerate fourRatings (-4) 1 ltac:(lia) Hi).
Defined.
End MovingAverageProperties.

(** ** The default of "Hide Not Rated" *)

Section HideDefault.
Import Season.
Implicit Types (cy cm y : Z) (season : string).

Lemma knownSeason_cases season :
  knownSeason season →
  season = "winter" ∨ season = "spring" ∨ season = "summer"
  ∨ season = "fall".
Proof.
  unfold knownSeason. rewrite !elem_of_cons, elem_of_nil. tauto.
Qed.

Lemma knownSeason_lower season :
  knownSeason season → toLowerCase season = season.
Proof.
  intros Hs.
  by destruct (knownSeason_cases season Hs) as [->|[->|[->| ->]]].
Qed.

Lemma hide_default_char cy cm y season :
  knownSeason season → 1 ≤ cm ≤ 12 →
  ∃ start,
    seasonMonths season = Some start
    ∧ (shouldHideNotRatedByDefault cy cm (Some y) season = true
       ↔ y < cy ∨ (y = cy ∧ start < cm)).
Proof.
  intros Hs Hcm. unfold shouldHideNotRatedByDefault.
  rewrite knownSeason_lower by done.
  destruct (knownSeason_cases season Hs) as [->|[->|[->| ->]]];
    (eexists; split; [reflexivity|]);
    match goal with
    | |- context [seasonMonths ?s] =>
        let v := eval vm_compute in (seasonMonths s) in
        change (seasonMonths s) with v
    end;
    cbn; repeat case_bool_decide; cbn; split; intros; try done; lia.
Qed.

(** X5: for a season of the manifest and a calendar month, the default is
    ON exactly when the season began before the current month: in an
    earlier year, or this year in an earlier month.  Upcoming seasons and
    the first month of the running season start with unrated titles
    shown. *)
Theorem hide_default_spec cy cm y season :
  knownSeason season → 1 ≤ cm ≤ 12 →
  ∃ start,
    seasonMonths season = Some start
    ∧ (shouldHideNotRatedByDefault cy cm (Some y) season = true
       ↔ y < cy ∨ (y = cy ∧ start < cm)).
Proof. apply hide_default_char. Qed.

Lemma hide_default_spec_witness :
  knownSeason "spring" ∧ 1 ≤ 5 ≤ 12
  ∧ shouldHideNotRatedByDefault 2026 5 (Some 2026) "spring" = true.
Proof.
  assert (knownSeason "spring") as Hs.
  { unfold knownSeason. rewrite !elem_of_cons. tauto. }
  assert (1 ≤ 5 ≤ 12) as Hcm by lia.
  split_and!; [done..|].
  destruct (hide_default_spec 2026 5 2026 "spring" Hs Hcm)
    as (start & Hstart & Hiff).
  apply Hiff. right. split; [done|].
  injection Hstart as <-. lia.
Defined.

(** X6: the default never falls back: once it is ON for a season it is ON
    at every later date. *)
Theorem hide_default_monotone cy cm cy' cm' y season :
  knownSeason season → 1 ≤ cm ≤ 12 → 1 ≤ cm' ≤ 12 →
  cy < cy' ∨ (cy = cy' ∧ cm ≤ cm') →
  shouldHideNotRatedByDefault cy cm (Some y) season = true →
  shouldHideNotRatedByDefault cy' cm' (Some y) season = true.
Proof.
  intros Hs Hcm Hcm' Hlater.
  destruct (hide_default_char cy cm y season Hs Hcm) as (start & Hst & ->).
  destruct (hide_default_char cy' cm' y season Hs Hcm')
    as (start' & Hst' & ->).
  assert (start' = start) as -> by congruence. lia.
Qed.

Lemma hide_default_monotone_witness :
  knownSeason "spring" ∧ 1 ≤ 5 ≤ 12 ∧ 1 ≤ 1 ≤ 12
  ∧ shouldHideNotRatedByDefault 2027 1 (Some 2026) "spring" = true.
Proof.
  assert (knownSeason "spring") as Hs.
  { unfold knownSeason. rewrite !elem_of_cons. tauto. }
  assert (1 ≤ 5 ≤ 12) as Hcm by lia.
  assert (1 ≤ 1 ≤ 12) as Hcm' by lia.
  split_and!; [done..|].
  apply (hide_default_monotone 2026 5 2027 1 2026 "spring" Hs Hcm Hcm');
    [lia|reflexivity].
Defined.

(** X7: the start month is looked up under the lower-cased name, but the
    running season is recognised by the name as given.  A name that is not
    already lower case therefore loses the first-month exemption: in the
    month the season starts the default is ON, where the lower-case name
    gives OFF. *)
Theorem hide_default_case season cy start :
  knownSeason (toLowerCase season) → season ≠ toLowerCase season →
  seasonMonths (toLowerCase season) = Some start →
  shouldHideNotRatedByDefault cy start (Some cy) season = true
  ∧ shouldHideNotRatedByDefault cy start (Some cy) (toLowerCase season)
    = false.
Proof.
  intros Hs Hne Hstart. split.
  - unfold shouldHideNotRatedByDefault. rewrite Hstart. cbn.
    rewrite !bool_decide_eq_false_2 by lia.
    rewrite bool_decide_eq_true_2 by done.
    assert (∀ s, knownSeason s → String.eqb season s = false) as Hneq.
    { intros s Hk. apply String.eqb_neq. intros ->.
      by rewrite knownSeason_lower in Hne. }
    rewrite !Hneq; [|unfold knownSeason; rewrite !elem_of_cons; tauto..].
    cbn. by rewrite bool_decide_eq_false_2 by lia.
  - assert (1 ≤ start ≤ 12) as Hrange.
    { destruct (knownSeason_cases _ Hs) as [H|[H|[H|H]]];
        rewrite H in Hstart; injection Hstart as <-; lia. }
    destruct (hide_default_char cy start cy _ Hs Hrange)
      as (start' & Hst & Hiff).
    apply not_true_iff_false. rewrite Hiff.
    assert (start' = start) as -> by congruence. lia.
Qed.

Lemma hide_default_case_witness :
  shouldHideNotRatedByDefault 2026 1 (Some 2026) "Winter" = true
  ∧ shouldHideNotRatedByDefault 2026 1 (Some 2026) "winter" = false.
Proof.
  apply (hide_default_case "Winter" 2026 1).
  - unfold knownSeason. rewrite !elem_of_cons. by left.
  - discriminate.
  - reflexivity.
Defined.

(** X8: the fallbacks: a year that does not parse ([NaN]) gives ON at any
    date, and so does, for this year or a past one, a season name that is
    not in the table. *)
Theorem hide_default_fallback cy cm y season :
  shouldHideNotRatedByDefault cy cm None season = true
  ∧ (seasonMonths (toLowerCase season) = None → y ≤ cy →
     shouldHideNotRatedByDefault cy cm (Some y) season = true).
Proof.
  split; [done|]. intros Hnone Hy.
  assert (∀ s, knownSeason s → String.eqb season s = false) as Hneq.
  { intros s Hk. apply String.eqb_neq. intros ->.
    rewrite knownSeason_lower in Hnone by done.
    by destruct (knownSeason_cases s Hk) as [->|[->|[->| ->]]]. }
  unfold shouldHideNotRatedByDefault. rewrite Hnone. cbn.
  rewrite !Hneq; [|unfold knownSeason; rewrite !elem_of_cons; tauto..].
  cbn. repeat case_bool_decide; try done; lia.
Qed.

Lemma hide_default_fallback_witness :
  shouldHideNotRatedByDefault 2026 5 (Some 2026) "autumn" = true.
Proof.
  apply (hide_default_fallback 2026 5 2026 "autumn"); [reflexivity|lia].
Defined.
End HideDefault.

(** ** How the filter composes *)

Lemma List_filter_sublist_impl {A} (f g : A → bool) (l : list A) :
  (∀ x, x ∈ l → f x = true → g x = true) →
  List.filter f l `sublist_of` List.filter g l.
Proof.
  induction l as [|x l IH]; intros Himpl; cbn [List.filter]; [done|].
  assert (List.filter f l `sublist_of` List.filter g l) as Hrest.
  { apply IH. intros y Hy. apply Himpl. by right. }
  destruct (f x) eqn:Hf.
  - rewrite (Himpl x) by (done || by left). by constructor.
  - destruct (g x); [by constructor|done].
Qed.

Lemma List_filter_idemp {A} (f : A → bool) (l : list A) :
  List.filter f (List.filter f l) = List.filter f l.
Proof.
  induction l as [|x l IH]; cbn [List.filter]; [done|].
  destruct (f x) eqn:Hf; [|done]. cbn [List.filter]. by rewrite Hf, IH.
Qed.

(** X9: filtering is idempotent: filtering a filtered list again changes
    nothing. *)
Theorem filterAnime_idempotent (st : FilterState) (l : list Anime) :
  App.filterAnime st (App.filterAnime st l) = App.filterAnime st l.
Proof. apply List_filter_idemp. Qed.

Lemma passes_mode_and_or (st : FilterState) (a : Anime) :
  selectedGenres st ≠ ∅ →
  passesTruthy (withMode st AND) a → passesTruthy (withMode st OR) a.
Proof.
  unfold passesTruthy, passesWith, genreCondition. cbn.
  intros Hne (H1 & H2 & H3 & H4). split_and!; [done..|]. intros _.
  specialize (H4 Hne).
  apply set_choose_L in Hne as [g Hg]. exists g. auto.
Qed.

(** X10: with at least one genre selected, whatever AND mode shows, OR
    mode shows too, in the same order. *)
Theorem and_mode_within_or_mode (st : FilterState) (l : list Anime) :
  selectedGenres st ≠ ∅ →
  App.filterAnime (withMode st AND) l
  `sublist_of` App.filterAnime (withMode st OR) l.
Proof.
  intros Hne. apply List_filter_sublist_impl. intros a _.
  rewrite !keeps_spec. by apply passes_mode_and_or.
Qed.

Lemma and_mode_within_or_mode_witness :
  selectedGenres Sample.actionOnly ≠ ∅
  ∧ App.filterAnime (withMode Sample.actionOnly AND)
      [Sample.animeA; Sample.animeB]
    `sublist_of` App.filterAnime (withMode Sample.actionOnly OR)
                   [Sample.animeA; Sample.animeB].
Proof.
  assert (selectedGenres Sample.actionOnly ≠ ∅) as Hne.
  { cbn. apply (non_empty_inhabited_L "Action"), elem_of_singleton_2.
    done. }
  split; [done|]. by apply and_mode_within_or_mode.
Defined.

(** X11: switching a content toggle to its permissive side (show adult
    content, show unrated, all countries) never removes a record from the
    view. *)
Theorem relaxing_toggles_grows (st st' : FilterState) (l : list Anime) :
  relaxes st st' →
  App.filterAnime st l `sublist_of` App.filterAnime st' l.
Proof.
  intros (Hsel & Hmode & Hh & Hr & Hj).
  apply List_filter_sublist_impl. intros a _. rewrite !keeps_spec.
  unfold passesTruthy, passesWith, genreCondition. rewrite Hsel, Hmode.
  intros (H1 & H2 & H3 & H4). split_and!; [| | |exact H4].
  - destruct H1; [left; auto|by right].
  - destruct H2 as [H2|H2]; [left|by right].
    destruct (hideNotRated st'); [|done]. rewrite Hr in H2; done.
  - destruct H3 as [H3|H3]; [left|by right].
    destruct (japaneseOnly st'); [|done]. rewrite Hj in H3; done.
Qed.

Lemma relaxing_toggles_grows_witness :
  relaxes Sample.defaults (mkFilterState false false true ∅ OR)
  ∧ App.filterAnime Sample.defaults [Sample.animeA; Sample.zeroScore]
    `sublist_of` App.filterAnime (mkFilterState false false true ∅ OR)
                   [Sample.animeA; Sample.zeroScore].
Proof.
  assert (relaxes Sample.defaults (mkFilterState false false true ∅ OR))
    as Hrel.
  { unfold relaxes. cbn. split_and!; done. }
  split; [done|]. by apply relaxing_toggles_grows.
Defined.

(** X12: a further genre widens the OR view (once one genre is selected)
    and narrows the AND view. *)
Theorem selecting_more_genres (st : FilterState) (sel sel' : gset string)
    (l : list Anime) :
  sel ⊆ sel' →
  (sel ≠ ∅ →
   App.filterAnime (withMode (withSelection st sel) OR) l
   `sublist_of` App.filterAnime (withMode (withSelection st sel') OR) l)
  ∧ App.filterAnime (withMode (withSelection st sel') AND) l
    `sublist_of` App.filterAnime (withMode (withSelection st sel) AND) l.
Proof.
  intros Hsub. split.
  - intros Hne. apply List_filter_sublist_impl. intros a _.
    rewrite !keeps_spec. unfold passesTruthy, passesWith, genreCondition.
    cbn. intros (H1 & H2 & H3 & H4). split_and!; [done..|]. intros _.
    destruct (H4 Hne) as (g & Hg & Hin). exists g. split; [|done].
    by apply Hsub.
  - apply List_filter_sublist_impl. intros a _.
    rewrite !keeps_spec. unfold passesTruthy, passesWith, genreCondition.
    cbn. intros (H1 & H2 & H3 & H4). split_and!; [done..|]. intros Hne g Hg.
    apply H4; [|by apply Hsub].
    intros Hempty. apply Hne. apply leibniz_equiv.
    apply elem_of_equiv_empty. intros x Hx. apply Hsub in Hx.
    rewrite Hempty in Hx. by apply elem_of_empty in Hx.
Qed.

Lemma selecting_more_genres_witness :
  ({["Comedy"]} : gset string) ⊆ {["Comedy"; "Action"]}
  ∧ App.filterAnime
      (withMode (withSelection Sample.defaults {["Comedy"; "Action"]}) AND)
      [Sample.animeA; Sample.animeB]
    `sublist_of`
    App.filterAnime (withMode (withSelection Sample.defaults {["Comedy"]}) AND)
      [Sample.animeA; Sample.animeB].
Proof.
  assert (({["Comedy"]} : gset string) ⊆ {["Comedy"; "Action"]}) as Hsub.
  { apply union_subseteq_l. }
  split; [done|].
  by apply (selecting_more_genres Sample.defaults _ _ _ Hsub).
Defined.

(** ** The genre buttons *)

(** X13: a second click on a genre button undoes the first, and clicks on
    two buttons can be made in either order. *)
Theorem toggleGenre_involutive (g h : string) (sel : gset string) :
  toggleGenre g (toggleGenre g sel) = sel
  ∧ toggleGenre g (toggleGenre h sel) = toggleGenre h (toggleGenre g sel).
Proof.
  assert (∀ x y (X : gset string),
            x ∈ toggleGenre y X ↔ (x ≠ y ∧ x ∈ X) ∨ (x = y ∧ y ∉ X))
    as Helem.
  { intros x y X. unfold toggleGenre. case_bool_decide as Hy.
    - rewrite elem_of_difference, elem_of_singleton.
      split; [tauto|]. intros [?|[-> ?]]; [tauto|contradiction].
    - rewrite elem_of_union, elem_of_singleton.
      destruct (decide (x = y)) as [->|Hne]; tauto. }
  split; apply leibniz_equiv; intros x.
  - rewrite !Helem.
    destruct (decide (x = g)) as [->|Hne], (decide (g ∈ sel)); tauto.
  - destruct (decide (g = h)) as [->|Hgh]; [done|].
    rewrite !Helem.
    destruct (decide (x = g)) as [->|Hg]; [|destruct (decide (x = h)) as [->|Hh]].
    + destruct (decide (g ∈ sel)); tauto.
    + destruct (decide (h ∈ sel)); intuition congruence.
    + tauto.
Qed.

(** X14: every genre that [extractGenres] offers is the genre of some
    record: selected alone, with the content toggles permissive, it never
    empties the view, in OR and in AND mode. *)
Theorem offered_genre_has_records (l : list Anime) (g : string)
    (mode : FilterMode) :
  g ∈ AppGenres.extractGenres l →
  App.filterAnime (mkFilterState true false false {[g]} mode) l ≠ [].
Proof.
  intros Hg. apply extractGenres_elem in Hg as [_ Hocc].
  unfold genreOccurrences in Hocc.
  apply list_elem_of_In, in_concat in Hocc as (gs & Hin & Hgs).
  apply list_elem_of_In in Hgs.
  apply in_map_iff in Hin as (a & <- & Ha). apply list_elem_of_In in Ha.
  intros Hnil. apply List_filter_nil_iff with (x := a) in Hnil; [|done].
  apply not_true_iff_false in Hnil. apply Hnil, keeps_spec.
  unfold passesTruthy, passesWith, genreCondition. cbn.
  split_and!; [by left..|]. intros _. destruct mode.
  - exists g. split; [by apply elem_of_singleton|done].
  - by intros g' ->%elem_of_singleton.
Qed.

Lemma offered_genre_has_records_witness :
  "Comedy" ∈ AppGenres.extractGenres [Sample.animeA; Sample.animeB]
  ∧ App.filterAnime (mkFilterState true false false {["Comedy"]} AND)
      [Sample.animeA; Sample.animeB] ≠ [].
Proof.
  assert ("Comedy" ∈ AppGenres.extractGenres [Sample.animeA; Sample.animeB])
    as Hg.
  { vm_compute. apply list_elem_of_In. cbn. tauto. }
  split; [done|]. by apply offered_genre_has_records.
Defined.

(** ** The two pickers *)

Lemma Random_matches_spec (active : gset string) (a : Anime) :
  Random.matches active a
  = App.keeps (mkFilterState true false false active OR) a.
Proof.
  unfold Random.matches, App.keeps, genreBlockRejects. cbn.
  case_bool_decide; [|done].
  assert (someSelected active (includes (default [] (genres a)))
          = match genres a with
            | Some gs => existsb (λ genre, bool_decide (genre ∈ active)) gs
            | None => false
            end) as ->.
  { apply eq_true_iff_eq. rewrite someSelected_spec.
    destruct (genres a) as [gs|]; cbn.
    - rewrite existsb_exists. split.
      + intros (g & Hg & Hin). exists g.
        split; [by apply list_elem_of_In|by apply bool_decide_eq_true].
      + intros (g & Hin & Hg). exists g.
        split; [by apply bool_decide_eq_true in Hg|by apply list_elem_of_In].
    - split; [|done]. intros (g & _ & Hin). by apply elem_of_nil in Hin. }
  by destruct (genres a) as [gs|]; [destruct (existsb _ gs)|].
Qed.

(** X15: the picker of random.js draws from exactly the records that
    [filterAnime] keeps in OR mode with the same genres and every content
    toggle permissive: adult, unrated and foreign titles stay in. *)
Theorem random_picker_pool (active : gset string) (l : list Anime) :
  List.filter (Random.matches active) l
  = App.filterAnime (mkFilterState true false false active OR) l.
Proof.
  unfold App.filterAnime. apply filter_ext. intros a.
  apply Random_matches_spec.
Qed.

(** X16: raising the rating threshold of the data_cn.js picker never adds
    a record to the pool. *)
Theorem raising_threshold_narrows (st : FilterState) (rf rf' : Q)
    (l : list Anime) :
  (rf <= rf')%Q →
  List.filter (DataCn.qualifies st rf') l
  `sublist_of` List.filter (DataCn.qualifies st rf) l.
Proof.
  intros Hle. apply List_filter_sublist_impl. intros a _.
  rewrite !qualifies_split, !andb_true_iff, !ratingChecks_general.
  intros [Hc [[Hnp Hrf]|(q & Hq & Hrf)]]; (split; [done|]).
  - left. split; [done|]. by eapply Qle_trans.
  - right. exists q. split; [done|]. by eapply Qle_trans.
Qed.

Lemma raising_threshold_narrows_witness :
  (7 <= 8)%Q
  ∧ List.filter (DataCn.qualifies Sample.defaults 8) [Sample.animeA]
    `sublist_of` List.filter (DataCn.qualifies Sample.defaults 7)
                   [Sample.animeA].
Proof.
  assert (7 <= 8)%Q as Hle by done.
  split; [done|]. by apply raising_threshold_narrows.
Defined.

(** ** The home page *)

Section HomePage.
Import Loader Home.
Implicit Types (m : list ManifestEntry) (y : Z).

Lemma groupByYear_lookup m y :
  groupByYear m !! y
  = match ofYear m y with [] => None | items => Some items end.
Proof.
  unfold groupByYear, ofYear.
  induction m as [|item m IH] using rev_ind; [done|].
  rewrite foldl_app, filter_app. cbn [foldl].
  destruct (decide (item_year item = y)) as [<-|Hne].
  - rewrite lookup_insert_eq, IH, filter_cons_True, filter_nil by done.
    by destruct (filter _ m).
  - rewrite lookup_insert_ne, IH, filter_cons_False, filter_nil by done.
    by rewrite app_nil_r.
Qed.

Lemma groupByYear_default m y :
  default [] (groupByYear m !! y) = ofYear m y.
Proof. rewrite groupByYear_lookup. by destruct (ofYear m y). Qed.

Lemma groupByYear_dom m y :
  y ∈ dom (groupByYear m) ↔ ∃ item, item ∈ m ∧ item_year item = y.
Proof.
  rewrite elem_of_dom, groupByYear_lookup. unfold ofYear. split.
  - destruct (filter _ m) as [|item items] eqn:Hf; [by intros []|].
    intros _. exists item.
    assert (item ∈ filter (λ item, item_year item = y) m) as Hin.
    { rewrite Hf. by left. }
    apply list_elem_of_filter in Hin. tauto.
  - intros (item & Hin & Hy).
    assert (item ∈ filter (λ item, item_year item = y) m) as Hf.
    { by apply list_elem_of_filter. }
    destruct (filter _ m); [by apply elem_of_nil in Hf|done].
Qed.

Lemma years_eq m :
  (displayYears m).*1
  = jsSort byYearDesc (elements (dom (groupByYear m))).
Proof.
  unfold displayYears.
  induction (jsSort byYearDesc _) as [|y ys IH]; [done|].
  cbn. by rewrite IH.
Qed.

Lemma years_perm m :
  (displayYears m).*1 ≡ₚ elements (dom (groupByYear m)).
Proof. rewrite years_eq. apply jsSort_perm. Qed.

Lemma displayYears_year_elem m y :
  y ∈ (displayYears m).*1 ↔ ∃ item, item ∈ m ∧ item_year item = y.
Proof. by rewrite years_perm, elem_of_elements, groupByYear_dom. Qed.

(** X18: the year sections are headed by the distinct years of the
    manifest, newest first. *)
Theorem displayYears_years m :
  StronglySorted (λ a b, b < a) (displayYears m).*1
  ∧ ∀ y, y ∈ (displayYears m).*1 ↔ ∃ item, item ∈ m ∧ item_year item = y.
Proof.
  split.
  - assert (NoDup (displayYears m).*1) as Hnd.
    { rewrite years_perm. apply NoDup_elements. }
    assert (StronglySorted (inOrder byYearDesc) (displayYears m).*1) as Hs.
    { rewrite years_eq. apply jsSort_sorted.
      - intros a b. unfold inOrder, byYearDesc. lia.
      - intros a b c. unfold inOrder, byYearDesc. lia. }
    induction Hs as [|a l Hs IH Hall]; constructor.
    + apply IH. by apply NoDup_cons in Hnd as [_ ?].
    + apply NoDup_cons in Hnd as [Hnotin _].
      apply Forall_forall. intros b Hb.
      pose proof (proj1 (Forall_forall _ _) Hall b Hb) as Hab.
      unfold inOrder, byYearDesc in Hab.
      assert (a ≠ b) by (by intros ->). lia.
  - apply displayYears_year_elem.
Qed.

Lemma displayYears_section m y seasons :
  (y, seasons) ∈ displayYears m → seasons = jsSort bySeason (ofYear m y).
Proof.
  unfold displayYears. intros Hin.
  apply list_elem_of_fmap in Hin as (y' & [= -> ->] & _).
  by rewrite groupByYear_default.
Qed.

(** X19: a year's section holds exactly the manifest entries of that
    year, laid out winter, spring, summer, fall. *)
Theorem displayYears_seasons m y seasons :
  (y, seasons) ∈ displayYears m →
  seasons ≡ₚ ofYear m y
  ∧ StronglySorted (λ a b, seasonRank a ≤ seasonRank b) seasons.
Proof.
  intros ->%displayYears_section. split; [apply jsSort_perm|].
  eapply (StronglySorted_weaken (inOrder bySeason)).
  - intros a b. unfold inOrder, bySeason, seasonRank. lia.
  - apply jsSort_sorted.
    + intros a b. unfold inOrder, bySeason. lia.
    + intros a b c. unfold inOrder, bySeason. lia.
Qed.

Lemma displayYears_seasons_witness :
  (2024, [LoaderSample.winter2024; LoaderSample.spring2024])
  ∈ displayYears [LoaderSample.spring2024; LoaderSample.winter2024]
  ∧ [LoaderSample.winter2024; LoaderSample.spring2024]
    ≡ₚ ofYear [LoaderSample.spring2024; LoaderSample.winter2024] 2024.
Proof.
  assert ((2024, [LoaderSample.winter2024; LoaderSample.spring2024])
          ∈ displayYears [LoaderSample.spring2024; LoaderSample.winter2024])
    as Hin.
  { vm_compute. by left. }
  split; [done|]. by apply (displayYears_seasons _ _ _ Hin).
Defined.

Lemma partition_by_key (ys : list Z) m :
  NoDup ys → (∀ item, item ∈ m → item_year item ∈ ys) →
  concat (map (ofYear m) ys) ≡ₚ m.
Proof.
  revert m. induction ys as [|y ys IH]; intros m Hnd Hall.
  - destruct m as [|item m]; [done|].
    specialize (Hall item (list_elem_of_here _ _)).
    by apply elem_of_nil in Hall.
  - apply NoDup_cons in Hnd as [Hy Hnd]. cbn [map concat].
    rewrite <- (filter_app_complement (λ item, item_year item = y) m) at 3.
    apply Permutation_app; [done|].
    assert (map (ofYear m) ys
            = map (ofYear (filter (λ item, ¬ item_year item = y) m)) ys)
      as ->.
    { apply map_ext_in. intros y' Hy'%list_elem_of_In. unfold ofYear.
      rewrite list_filter_filter. apply list_filter_iff.
      intros item. split; [|tauto]. intros <-. split; [done|].
      by intros <-. }
    apply IH; [done|].
    intros item [Hne Hin]%list_elem_of_filter. cbn in Hne.
    specialize (Hall item Hin).
    by apply elem_of_cons in Hall as [?|?].
Qed.

(** X20: the sections together show every manifest entry exactly once. *)
Theorem displayYears_partition m :
  concat (displayYears m).*2 ≡ₚ m.
Proof.
  assert ((displayYears m).*2
          = map (λ y, jsSort bySeason (ofYear m y)) (displayYears m).*1)
    as ->.
  { unfold displayYears.
    induction (jsSort byYearDesc _) as [|y ys IH]; [done|].
    cbn. by rewrite IH, groupByYear_default. }
  assert (NoDup (displayYears m).*1) as Hnd.
  { rewrite years_perm. apply NoDup_elements. }
  rewrite <- (partition_by_key (displayYears m).*1 m) at 2; [|done|].
  - induction (displayYears m).*1 as [|y ys IH]; [done|].
    cbn [map concat]. apply Permutation_app; [apply jsSort_perm|].
    apply IH. by apply NoDup_cons in Hnd as [_ ?].
  - intros item Hin. apply displayYears_year_elem. by exists item.
Qed.
End HomePage.

(** ** Navigation by URL hash *)

Section Navigation.
Import Nav.
Implicit Types (s year season : string) (c : Ascii.ascii).

Lemma split_cons_inv c s : ∃ part parts, split c s = part :: parts.
Proof.
  induction s as [|c' s (part & parts & IH)]; cbn; [by eexists _, _|].
  destruct (Ascii.eqb c' c); [by eexists _, _|].
  rewrite IH. by eexists _, _.
Qed.

Lemma split_no_sep c s : ¬ occursIn c s → split c s = [s].
Proof.
  induction s as [|c' s IH]; cbn; [done|]. intros Hno.
  destruct (Ascii.eqb_spec c' c) as [->|Hne]; [tauto|].
  rewrite IH by tauto. done.
Qed.

Lemma split_at_sep c s1 s2 :
  ¬ occursIn c s1 → split c (s1 ++ String c s2) = s1 :: split c s2.
Proof.
  induction s1 as [|c' s1 IH]; intros Hno.
  - change (split c (String c s2) = "" :: split c s2).
    cbn. by rewrite Ascii.eqb_refl.
  - change (split c (String c' (s1 ++ String c s2))
            = String c' s1 :: split c s2).
    cbn in Hno. cbn [split].
    destruct (Ascii.eqb_spec c' c) as [->|Hne]; [tauto|].
    rewrite IH by tauto. done.
Qed.

Lemma nonEmpty_true s : nonEmpty s = true ↔ s ≠ "".
Proof. unfold nonEmpty. by rewrite negb_true_iff, String.eqb_neq. Qed.

Lemma encodeFragment_kept s : keptVerbatim s → encodeFragment s = s.
Proof.
  induction s as [|c s IH]; [done|]. intros (Hr & Hp & Hs).
  cbn [encodeFragment]. by rewrite Hr, Hp, IH.
Qed.

Lemma keptVerbatim_app s1 s2 :
  keptVerbatim s1 → keptVerbatim s2 → keptVerbatim (s1 ++ s2).
Proof.
  induction s1 as [|c s1 IH]; [done|]. intros (Hr & Hp & Hs) H2.
  change (keptVerbatim (String c (s1 ++ s2))). cbn [keptVerbatim].
  split_and!; [done..|]. by apply IH.
Qed.

Lemma assignHash_kept s :
  s ≠ "" → (∀ rest, s ≠ String hashSign rest) → keptVerbatim s →
  assignHash s = String hashSign s.
Proof.
  intros Hne Hsharp Hkept. unfold assignHash.
  destruct s as [|c s']; [done|].
  destruct (Ascii.eqb_spec c hashSign) as [->|Hc]; [by destruct (Hsharp s')|].
  by rewrite encodeFragment_kept.
Qed.

(** X21: the hash written by [showAnimePage] reads back as the same page:
    for a non-empty year and season without a dash, made of characters
    that the assignment to [location.hash] leaves as they are (printable
    ASCII other than space, the double quote, [<], [>] and the
    backquote), the year not starting with [#], the hash reads [#], the
    year, a dash and the season, and [handleHashNavigation] recovers
    both. *)
Theorem hash_round_trip year season :
  year ≠ "" → season ≠ "" →
  ¬ occursIn dash year → ¬ occursIn dash season →
  (∀ rest, year ≠ String hashSign rest) →
  keptVerbatim year → keptVerbatim season →
  hashOfAnimePage year season = String hashSign (year ++ String dash season)
  ∧ handleHashNavigation (hashOfAnimePage year season)
    = AnimePage year season.
Proof.
  intros Hy Hs Hdy Hds Hsharp Hky Hks.
  assert (hashOfAnimePage year season
          = String hashSign (year ++ String dash season)) as ->.
  { apply assignHash_kept.
    - by destruct year.
    - destruct year as [|c year']; [done|]. intros rest [= -> _].
      by destruct (Hsharp year').
    - apply keptVerbatim_app; [done|]. cbn [keptVerbatim]. by split_and!. }
  split; [done|]. unfold handleHashNavigation. cbn [substring1].
  assert (nonEmpty (year ++ String dash season) = true) as ->.
  { apply nonEmpty_true. by destruct year. }
  rewrite split_at_sep, split_no_sep by done. cbn.
  by rewrite (proj2 (nonEmpty_true year)), (proj2 (nonEmpty_true season)).
Qed.

Lemma hash_round_trip_witness :
  hashOfAnimePage "2024" "winter" = "#2024-winter"
  ∧ handleHashNavigation (hashOfAnimePage "2024" "winter")
    = AnimePage "2024" "winter".
Proof.
  apply hash_round_trip; cbn;
    first [discriminate | intuition discriminate | by split_and!].
Defined.

(** Outside these characters the page read back differs: a space comes
    back percent-encoded, and a leading [#] is lost. *)
Example hash_not_verbatim :
  handleHashNavigation (hashOfAnimePage "2024" "win ter")
  = AnimePage "2024" "win%20ter"
  ∧ handleHashNavigation (hashOfAnimePage "#2024" "winter")
    = AnimePage "2024" "winter".
Proof. split; reflexivity. Qed.

(** X22: every other shape of hash leads home: an empty hash, a hash
    without a dash, one with nothing before the first dash, and one with
    nothing between the first dash and the next or the end. *)
Theorem malformed_hash_goes_home s year :
  handleHashNavigation "" = HomePage
  ∧ (¬ occursIn dash s → handleHashNavigation (String hashSign s) = HomePage)
  ∧ handleHashNavigation (String hashSign (String dash s)) = HomePage
  ∧ (¬ occursIn dash year →
     handleHashNavigation (String hashSign (year ++ String dash "")) = HomePage
     ∧ handleHashNavigation (String hashSign (year ++ String dash (String dash s)))
       = HomePage).
Proof.
  split_and!.
  - done.
  - intros Hno. unfold handleHashNavigation. cbn [substring1].
    rewrite split_no_sep by done. by destruct (nonEmpty s).
  - unfold handleHashNavigation. cbn [substring1].
    destruct (nonEmpty _); [|done]. cbn [split].
    rewrite Ascii.eqb_refl. cbn.
    by destruct (split_cons_inv dash s) as (part & parts & ->).
  - intros Hno. unfold handleHashNavigation. cbn [substring1]. split.
    + destruct (nonEmpty _); [|done].
      rewrite split_at_sep by done. cbn. by rewrite andb_false_r.
    + destruct (nonEmpty _); [|done].
      rewrite split_at_sep by done. cbn [split].
      rewrite Ascii.eqb_refl. cbn. by rewrite andb_false_r.
Qed.

Lemma malformed_hash_goes_home_witness :
  handleHashNavigation "#2024" = HomePage
  ∧ handleHashNavigation "#2024-" = HomePage.
Proof.
  destruct (malformed_hash_goes_home "2024" "2024") as (_ & H1 & _ & H2).
  split.
  - apply H1. cbn. intuition discriminate.
  - apply H2. cbn. intuition discriminate.
Defined.
End Navigation.

(** ** Start-up of the picker page *)

Section PickerStartup.
Import Loader Picker.

Lemma startup_state (body : list ManifestEntry) (net : Network)
    (order : list nat) :
  order ≡ₚ seq 0 (length body) →
  let page := loadManifest (ManifestResponse true (Some body)) net order
                blank in
  allAnimeCache (loader page) = merged net body
  ∧ fetchLog (loader page) = map partitionKey body
  ∧ allGenres page = Genres.loadGenres (merged net body)
  ∧ errorShown page = None.
Proof.
  intros Hperm. cbn zeta. unfold loadManifest, loadGenres, blank.
  cbn [loader allGenres errorShown].
  destruct (decide (body = [])) as [->|Hne]; [done|].
  change (withManifest (initial []) body) with (initial body).
  assert (loadAllAnimeData (initial body)
          = (Pending 0,
             mkState body [] (Some 0%nat) 1 (map partitionKey body)))
    as ->.
  { unfold loadAllAnimeData. cbn.
    rewrite bool_decide_eq_false_2 by lia.
    by rewrite bool_decide_eq_false_2 by (by rewrite length_zero_iff_nil). }
  erewrite settleLoad_complete; [|done..]. done.
Qed.

(** X23: when the manifest arrives, the page caches the seasons' records
    in manifest order, fetches each season once, offers the 30 most
    frequent genres of that catalog and shows no error, whatever the order
    in which the season requests settle. *)
Theorem startup_loads_genres (body : list ManifestEntry) (net : Network)
    (order : list nat) :
  order ≡ₚ seq 0 (length body) →
  let page := loadManifest (ManifestResponse true (Some body)) net order
                blank in
  allAnimeCache (loader page) = merged net body
  ∧ fetchLog (loader page) = map partitionKey body
  ∧ allGenres page = Genres.loadGenres (merged net body)
  ∧ errorShown page = None.
Proof. apply startup_state. Qed.

Lemma startup_loads_genres_witness :
  [1%nat; 0%nat] ≡ₚ seq 0 2
  ∧ allGenres
      (loadManifest
         (ManifestResponse true
            (Some [LoaderSample.winter2024; LoaderSample.spring2024]))
         LoaderSample.winterOnly [1%nat; 0%nat] blank)
    = ["Action"; "Comedy"].
Proof.
  assert ([1%nat; 0%nat] ≡ₚ seq 0 2) as Hperm by apply Permutation_swap.
  split; [done|].
  destruct (startup_loads_genres
              [LoaderSample.winter2024; LoaderSample.spring2024]
              LoaderSample.winterOnly [1%nat; 0%nat] Hperm)
    as (_ & _ & -> & _).
  by vm_compute.
Defined.

(** X24: the only error the start-up can show is the manifest's: it is
    shown exactly when the manifest does not arrive, and then no season is
    requested; failing seasons never produce the genre error. *)
Theorem startup_errors (response : ManifestFetch) (net : Network)
    (order : list nat) :
  let page := loadManifest response net order blank in
  (manifestArrived response → errorShown page = None)
  ∧ (¬ manifestArrived response →
     errorShown page
     = Some "Failed to load anime data. Please refresh the page."
     ∧ fetchLog (loader page) = []
     ∧ allGenres page = []).
Proof.
  cbn zeta. split.
  - intros [body ->]. unfold loadManifest, loadGenres, blank.
    cbn [loader allGenres errorShown].
    destruct (loadAllAnimeData _) as [[v|p] st]; [done|].
    pose proof (settleLoad_never_rejects net order st) as Hnever.
    destruct (settleLoad net order st) as [[[v|e]|] st']; [done| |done].
    by destruct (Hnever e).
  - intros Hno. unfold loadManifest.
    destruct response as [|[] [body|]]; try done.
    destruct Hno. by exists body.
Qed.

Lemma startup_errors_witness :
  errorShown
    (loadManifest (ManifestResponse true
                     (Some [LoaderSample.winter2024]))
       LoaderSample.offline [0%nat] blank) = None
  ∧ errorShown (loadManifest (ManifestResponse false None)
                  LoaderSample.offline [] blank)
    = Some "Failed to load anime data. Please refresh the page.".
Proof.
  split.
  - apply startup_errors. by eexists.
  - apply startup_errors. by intros [body [=]].
Defined.

(** X17: the picker of random.js never fetches; it draws from the cache
    as the start-up left it.  When the manifest did not arrive, or no
    season yielded a record, every pick answers [null], whatever genres
    are active. *)
Theorem random_picker_without_catalog (response : ManifestFetch)
    (net : Network) (order : list nat) (active : gset string)
    (random : spec_float) :
  let page := loadManifest response net order blank in
  ¬ manifestArrived response
  ∨ (∃ body, response = ManifestResponse true (Some body)
             ∧ order ≡ₚ seq 0 (length body) ∧ merged net body = []) →
  Random.getRandomAnime active (allAnimeCache (loader page)) random
  = Random.PickedNull.
Proof.
  cbn zeta. intros Hcase.
  assert (allAnimeCache (loader (loadManifest response net order blank))
          = []) as ->; [|done].
  destruct Hcase as [Hno|(body & -> & Hperm & Hempty)].
  - unfold loadManifest. destruct response as [|[] [body|]]; try done.
    destruct Hno. by exists body.
  - destruct (startup_state body net order Hperm) as (-> & _).
    done.
Qed.

Lemma random_picker_without_catalog_witness :
  ¬ manifestArrived ManifestNetworkError
  ∧ Random.getRandomAnime ∅
      (allAnimeCache
         (loader (loadManifest ManifestNetworkError LoaderSample.offline []
                    blank))) Sample.half
    = Random.PickedNull.
Proof.
  assert (¬ manifestArrived ManifestNetworkError) as Hno.
  { by intros [body [=]]. }
  split; [done|].
  apply (random_picker_without_catalog ManifestNetworkError
           LoaderSample.offline [] ∅ Sample.half).
  by left.
Defined.
End PickerStartup.

(** ** The anime card *)

Section AnimeCard.
Import Card.

Lemma literal_length (s : string) :
  length (literal s) = String.length s.
Proof.
  unfold literal. rewrite length_map.
  induction s as [|c s IH]; [done|]. cbn. by rewrite IH.
Qed.

(** X25: the card shows 'No synopsis available.' for a missing, null or
    empty synopsis; otherwise a synopsis of at most 150 UTF-16 code units
    is shown whole and without a "Read more" button, and a longer one as
    its first 150 code units and an ellipsis.  The preview never exceeds
    153 code units. *)
Theorem synopsisPreview_bound (field : option JsString) :
  (length (synopsisPreview field) ≤ 153)%nat
  ∧ (field = None ∨ field = Some [] →
     synopsisPreview field = literal "No synopsis available."
     ∧ showReadMore field = false)
  ∧ (∀ synopsis, field = Some synopsis → synopsis ≠ [] →
     showReadMore field = bool_decide (150 < length synopsis)%nat
     ∧ ((length synopsis ≤ 150)%nat → synopsisPreview field = synopsis)
     ∧ ((150 < length synopsis)%nat →
        synopsisPreview field = take 150 synopsis ++ literal "..."
        ∧ length (synopsisPreview field) = 153%nat)).
Proof.
  split_and!.
  - unfold synopsisPreview. case_bool_decide as Hlen; [|lia].
    rewrite length_app, length_take, literal_length.
    change (String.length "...") with 3%nat. lia.
  - by intros [->| ->].
  - intros synopsis -> Hne.
    assert (synopsisOrDefault (Some synopsis) = synopsis) as Hs.
    { by destruct synopsis. }
    unfold showReadMore, synopsisPreview. rewrite Hs. split_and!.
    + done.
    + intros Hle. by rewrite bool_decide_eq_false_2 by lia.
    + intros Hlt. rewrite bool_decide_eq_true_2 by done. split; [done|].
      rewrite length_app, length_take, literal_length.
      change (String.length "...") with 3%nat. lia.
Qed.

Lemma synopsisPreview_bound_witness :
  synopsisPreview None = literal "No synopsis available."
  ∧ synopsisPreview (Some (literal "A quiet town."))
    = literal "A quiet town.".
Proof.
  destruct (synopsisPreview_bound None) as (_ & Hnone & _).
  destruct (synopsisPreview_bound (Some (literal "A quiet town.")))
    as (_ & _ & Hsome).
  split.
  - apply Hnone. by left.
  - destruct (Hsome _ eq_refl) as (_ & Hshort & _); [done|].
    apply Hshort. cbn. lia.
Defined.

(** X26: while "Hide Not Rated" is on, no card in the grid carries the
    "Not rated" label. *)
Theorem rated_cards_only (st : FilterState) (l : list Anime) (a : Anime) :
  hideNotRated st = true → a ∈ App.filterAnime st l →
  scoreLabel a = Star (score a).
Proof.
  intros Hhide Hin.
  apply list_elem_of_In, filter_In in Hin as [_ Hkeep].
  apply keeps_spec in Hkeep as (_ & [Hoff|Hrated] & _); [congruence|].
  unfold scoreLabel. by rewrite Hrated.
Qed.

Lemma rated_cards_only_witness :
  hideNotRated Sample.defaults = true
  ∧ Sample.animeA ∈ App.filterAnime Sample.defaults
                      [Sample.animeA; Sample.animeB]
  ∧ scoreLabel Sample.animeA = Star (score Sample.animeA).
Proof.
  assert (Sample.animeA ∈ App.filterAnime Sample.defaults
                            [Sample.animeA; Sample.animeB]) as Hin.
  { vm_compute. by left. }
  split_and!; [done..|].
  by apply (rated_cards_only Sample.defaults _ _ eq_refl Hin).
Defined.
End AnimeCard.
